(** * wymp/config-node: the [config] pipeline of [src/index.ts]

    A shallow embedding of the module's five functions ([config],
    [inflateSecretsDir], [_configFromEnv], [interpret], [nativize]) together
    with the part of the JavaScript runtime they call.

    Modelling conventions.
    - A JavaScript string is the list of its UTF-16 code units ([jsstring]);
      [js "..."] turns an ASCII literal into one.
    - A JavaScript number is an IEEE double.  The integer-valued doubles that
      [parseInt] produces are carried with their exact value ([Int z]); the
      rounding of an integer to 53 significant bits ([round53]) and the
      shortest round-trip rendering of [Number::toString] are written out.
    - An object is the list of its own enumerable properties in insertion
      order ([Object_keys] puts array indices first, as the language does).
      Prototypes are not modelled: the operations that would read or change
      one end in [Unmodelled].
    - The module is compiled as a strict-mode module, so assigning a property
      on a primitive throws a [TypeError].
    - Exceptions are explicit: every operation that can throw returns a
      [result].
    - The file system, [JSON.parse], [JSON.stringify] and the conversion
      of an object to a string are given by a [host]; each of them can
      throw.
    - The namespace is read as literal text inside the pattern of
      [_configFromEnv] ([ns_literal]). *)

From Stdlib Require Import List ZArith NArith Bool Lia Ascii String Sorted.
From Stdlib Require Import Permutation.
Import ListNotations.

Set Implicit Arguments.
Set Warnings "-abstract-large-number,-register-all".
Local Open Scope N_scope.

(* ===================================================================== *)
(** * Strings *)
(* ===================================================================== *)

(** A UTF-16 code unit, and a string as the list of its code units. *)
Abbreviation code_unit := N (only parsing).
Abbreviation jsstring := (list N) (only parsing).

(** The code units of an ASCII literal. *)
Definition js (s : string) : jsstring :=
  List.map N_of_ascii (list_ascii_of_string s).

Arguments js s%_string.

Fixpoint jsstring_eqb (a b : jsstring) : bool :=
  match a, b with
  | [], [] => true
  | x :: a', y :: b' => N.eqb x y && jsstring_eqb a' b'
  | _, _ => false
  end.

(** [a <= b] in the order of [Array.prototype.sort] without a comparator:
    lexicographic on code units, a proper prefix first. *)
Fixpoint jsstring_leb (a b : jsstring) : bool :=
  match a, b with
  | [], _ => true
  | _ :: _, [] => false
  | x :: a', y :: b' =>
      if N.ltb x y then true
      else if N.ltb y x then false
      else jsstring_leb a' b'
  end.

Fixpoint is_prefix (p s : jsstring) : bool :=
  match p, s with
  | [], _ => true
  | x :: p', y :: s' => N.eqb x y && is_prefix p' s'
  | _ :: _, [] => false
  end.

(** [strip_prefix p s = Some r] when [s = p ++ r]. *)
Fixpoint strip_prefix (p s : jsstring) : option jsstring :=
  match p, s with
  | [], _ => Some s
  | x :: p', y :: s' => if N.eqb x y then strip_prefix p' s' else None
  | _ :: _, [] => None
  end.

Fixpoint drop_while (f : code_unit -> bool) (s : jsstring) : jsstring :=
  match s with
  | [] => []
  | c :: s' => if f c then drop_while f s' else s
  end.

(** LineTerminator: LF, CR, LS, PS.  The regular-expression atom [.]
    (without the [s] flag) matches every code unit but these. *)
Definition is_line_terminator (c : code_unit) : bool :=
  (c =? 10) || (c =? 13) || (c =? 8232) || (c =? 8233).

(** StrWhiteSpaceChar: WhiteSpace and LineTerminator. *)
Definition is_whitespace (c : code_unit) : bool :=
  (c =? 9) || (c =? 11) || (c =? 12) || (c =? 32) || (c =? 160)
  || (c =? 5760) || ((8192 <=? c) && (c <=? 8202)) || (c =? 8239)
  || (c =? 8287) || (c =? 12288) || (c =? 65279)
  || is_line_terminator c.

Definition is_digit (c : code_unit) : bool := (48 <=? c) && (c <=? 57).

(** [String.prototype.split(sep)] for a non-empty separator: [skip] counts
    the code units of a separator found at an earlier position that are
    still to be passed over; [cur] is the current piece, reversed. *)
Fixpoint split_aux (sep s : jsstring) (skip : nat) (cur : jsstring)
  : list jsstring :=
  match s with
  | [] => [rev cur]
  | c :: s' =>
      match skip with
      | S k => split_aux sep s' k cur
      | O =>
          if is_prefix sep s
          then rev cur :: split_aux sep s' (List.length sep - 1) []
          else split_aux sep s' 0 (c :: cur)
      end
  end.

(** [s.split(sep)]; with the empty separator the string falls apart into
    its code units. *)
Definition split (s sep : jsstring) : list jsstring :=
  match sep with
  | [] => List.map (fun c => [c]) s
  | _ :: _ => split_aux sep s 0 []
  end.

(** Insertion sort, the model of [Array.prototype.sort] (which is stable). *)
Fixpoint insert_sorted (A : Type) (leb : A -> A -> bool) (x : A) (l : list A)
  : list A :=
  match l with
  | [] => [x]
  | y :: l' => if leb x y then x :: l else y :: insert_sorted leb x l'
  end.

Fixpoint sort_by (A : Type) (leb : A -> A -> bool) (l : list A) : list A :=
  match l with
  | [] => []
  | x :: l' => insert_sorted leb x (sort_by leb l')
  end.

(** [keys.sort()] on an array of strings. *)
Definition sort (keys : list jsstring) : list jsstring :=
  sort_by jsstring_leb keys.

(* ===================================================================== *)
(** * Numbers *)
(* ===================================================================== *)

(** The values [parseInt] can return: integer-valued doubles, with [Int z]
    holding the exact value [z] (so [Int 0] is +0). *)
Inductive integral : Type :=
| NaN
| Infinity (negative : bool)
| NegZero
| Int (z : Z).

(** A double in general: [Near neg m e] is the double nearest to
    [(-1)^neg * m / 10^e], for a value that is not an integer. *)
Inductive number : Type :=
| Integral (i : integral)
| Near (negative : bool) (m e : N).

Coercion Integral : integral >-> number.

(** Round a natural number to the nearest one that has at most 53
    significant bits, ties to the even significand. *)
Definition round53 (n : N) : N :=
  let bits := N.size n in
  if bits <=? 53 then n
  else
    let e := bits - 53 in
    let q := N.shiftr n e in
    let r := N.land n (N.ones e) in
    let half := N.shiftl 1 (e - 1) in
    let q' := if (half <? r) || ((r =? half) && N.odd q) then q + 1 else q in
    N.shiftl q' e.

(** The double nearest to the non-zero integer [(-1)^neg * m]. *)
Definition to_double (neg : bool) (m : N) : integral :=
  let r := round53 m in
  if 2 ^ 1024 <=? r then Infinity neg
  else Int (if neg then - Z.of_N r else Z.of_N r).

(** Decimal digits of a natural number, most significant first. *)
Fixpoint decimal_aux (fuel : nat) (n : N) (acc : jsstring) : jsstring :=
  match fuel with
  | O => acc
  | S f =>
      let acc' := (48 + n mod 10) :: acc in
      if n / 10 =? 0 then acc' else decimal_aux f (n / 10) acc'
  end.

Definition decimal (n : N) : jsstring :=
  decimal_aux (S (N.to_nat (N.log2 n))) n [].

(** The string form of a base-10 integer. *)
Definition int_to_string (z : Z) : jsstring :=
  match z with
  | Z0 => js "0"
  | Zpos p => decimal (Npos p)
  | Zneg p => js "-" ++ decimal (Npos p)
  end.

(** [Number::toString] on a positive integer-valued double [x]: among the
    integers [s * 10^j] that round to [x], take the one with the fewest
    digits [s], nearest to [x].  [j] runs from the number of digits of [x]
    minus one down to zero. *)
Fixpoint shortest_from (fuel : nat) (j : N) (x : N) : N :=
  match fuel with
  | O => x
  | S f =>
      let p := 10 ^ j in
      let lo := (x / p) * p in
      let hi := lo + p in
      let oklo := round53 lo =? x in
      let okhi := round53 hi =? x in
      if oklo && okhi then
        if x - lo <? hi - x then lo
        else if hi - x <? x - lo then hi
        else if N.even (x / p) then lo else hi
      else if oklo then lo
      else if okhi then hi
      else shortest_from f (j - 1) x
  end.

Definition shortest (x : N) : N :=
  let k := List.length (decimal x) in
  shortest_from k (N.of_nat k - 1) x.

Fixpoint strip_zeros (rev_digits : jsstring) : jsstring :=
  match rev_digits with
  | 48 :: r => strip_zeros r
  | _ => rev_digits
  end.

(** [d.ddde+N], the notation from [1e21] on. *)
Definition exponential (c : N) : jsstring :=
  let ds := decimal c in
  let ex := js "e+" ++ decimal (N.of_nat (List.length ds) - 1) in
  match rev (strip_zeros (rev ds)) with
  | [] => ds
  | [d] => d :: ex
  | d :: rest => d :: 46 :: rest ++ ex
  end.

Definition positive_to_string (x : N) : jsstring :=
  let c := shortest x in
  if c <? 10 ^ 21 then decimal c else exponential c.

(** [String(n)] for the results of [parseInt]. *)
Definition integral_to_string (n : integral) : jsstring :=
  match n with
  | NaN => js "NaN"
  | Infinity false => js "Infinity"
  | Infinity true => js "-Infinity"
  | NegZero => js "0"
  | Int Z0 => js "0"
  | Int (Zpos p) => positive_to_string (Npos p)
  | Int (Zneg p) => js "-" ++ positive_to_string (Npos p)
  end.

(** The value of a digit in a radix up to 16. *)
Definition digit_of (radix : N) (c : code_unit) : option N :=
  let d :=
    if is_digit c then Some (c - 48)
    else if (97 <=? c) && (c <=? 102) then Some (c - 87)
    else if (65 <=? c) && (c <=? 70) then Some (c - 55)
    else None in
  match d with
  | Some v => if v <? radix then Some v else None
  | None => None
  end.

(** The longest prefix of digits, as digit values, and what follows it. *)
Fixpoint span_digits (radix : N) (s : jsstring) : list N * jsstring :=
  match s with
  | [] => ([], [])
  | c :: s' =>
      match digit_of radix c with
      | Some d => let (ds, rest) := span_digits radix s' in (d :: ds, rest)
      | None => ([], s)
      end
  end.

Definition digits_value (radix : N) (ds : list N) : N :=
  fold_left (fun a d => a * radix + d) ds 0.

Definition strip_sign (s : jsstring) : bool * jsstring :=
  match s with
  | 45 :: r => (true, r)
  | 43 :: r => (false, r)
  | _ => (false, s)
  end.

(** [parseInt(s)] with no radix argument. *)
Definition parseInt (s : jsstring) : integral :=
  let (neg, s1) := strip_sign (drop_while is_whitespace s) in
  let (radix, s2) :=
    match s1 with
    | 48 :: x :: r => if (x =? 120) || (x =? 88) then (16, r) else (10, s1)
    | _ => (10, s1)
    end in
  match fst (span_digits radix s2) with
  | [] => NaN
  | ds =>
      let m := digits_value radix ds in
      if m =? 0 then (if neg then NegZero else Int 0) else to_double neg m
  end.

Definition trim (s : jsstring) : jsstring :=
  rev (drop_while is_whitespace (rev (drop_while is_whitespace s))).

(** The digits of a string that consists of digits only. *)
Definition all_digits (radix : N) (s : jsstring) : option (list N) :=
  match span_digits radix s with
  | (d :: ds, []) => Some (d :: ds)
  | _ => None
  end.

(** NonDecimalIntegerLiteral: [0x], [0o] and [0b] literals. *)
Definition non_decimal_literal (s : jsstring) : option N :=
  match s with
  | 48 :: x :: r =>
      let radix :=
        if (x =? 120) || (x =? 88) then Some 16
        else if (x =? 111) || (x =? 79) then Some 8
        else if (x =? 98) || (x =? 66) then Some 2
        else None in
      match radix with
      | Some rd => option_map (digits_value rd) (all_digits rd r)
      | None => None
      end
  | _ => None
  end.

(** ExponentPart, or nothing at all. *)
Definition exponent_part (s : jsstring) : option Z :=
  match s with
  | [] => Some 0%Z
  | c :: r =>
      if (c =? 101) || (c =? 69) then
        let (neg, r') := strip_sign r in
        match all_digits 10 r' with
        | Some ds =>
            let v := Z.of_N (digits_value 10 ds) in
            Some (if neg then (- v)%Z else v)
        | None => None
        end
      else None
  end.

(** StrUnsignedDecimalLiteral other than [Infinity]: the digits as one
    natural number and the power of ten that scales it. *)
Definition decimal_literal (s : jsstring) : option (N * Z) :=
  let (ip, r1) := span_digits 10 s in
  let (fp, r2) :=
    match r1 with
    | 46 :: r => span_digits 10 r
    | _ => ([], r1)
    end in
  match ip ++ fp with
  | [] => None
  | ds =>
      match exponent_part r2 with
      | Some ex =>
          Some (digits_value 10 ds, (ex - Z.of_nat (List.length fp))%Z)
      | None => None
      end
  end.

(** The double nearest to [(-1)^neg * m * 10^ex]. *)
Definition of_decimal (neg : bool) (m : N) (ex : Z) : number :=
  if m =? 0 then (if neg then NegZero else Int 0)
  else
    match ex with
    | Zneg p =>
        let d := 10 ^ Npos p in
        if m mod d =? 0 then to_double neg (m / d) else Near neg m (Npos p)
    | _ => to_double neg (m * 10 ^ Z.to_N ex)
    end.

(** StringToNumber: [None] when the string is not a StringNumericLiteral. *)
Definition StringNumericLiteral (s : jsstring) : option number :=
  match trim s with
  | [] => Some (Integral (Int 0))
  | t =>
      match non_decimal_literal t with
      | Some n => Some (if n =? 0 then Integral (Int 0)
                        else Integral (to_double false n))
      | None =>
          let (neg, r) := strip_sign t in
          if jsstring_eqb r (js "Infinity") then Some (Integral (Infinity neg))
          else
            match decimal_literal r with
            | Some (m, ex) => Some (of_decimal neg m ex)
            | None => None
            end
      end
  end.

(** [Number(s)] on a string. *)
Definition Number (s : jsstring) : number :=
  match StringNumericLiteral s with
  | Some n => n
  | None => NaN
  end.

(* ===================================================================== *)
(** * Values and objects *)
(* ===================================================================== *)

Inductive objclass : Type := Plain | Array.

(** JavaScript values as the module meets them.  An object carries its own
    enumerable properties in insertion order; an array is an object of class
    [Array] whose properties are its indices. *)
Inductive value : Type :=
| VUndefined
| VNull
| VBool (b : bool)
| VNum (n : number)
| VStr (s : jsstring)
| VObject (cls : objclass) (props : list (jsstring * value)).

(** The object literal [{}] and the array literal [[]]. *)
Definition empty_object : value := VObject Plain [].
Definition empty_array : value := VObject Array [].

Fixpoint index_from (i : N) (items : list value) : list (jsstring * value) :=
  match items with
  | [] => []
  | v :: rest => (decimal i, v) :: index_from (i + 1) rest
  end.

(** The array [[v0, v1, ...]]. *)
Definition js_array (items : list value) : value :=
  VObject Array (index_from 0 items).

Section Properties.
Variable A : Type.

Fixpoint obj_get (o : list (jsstring * A)) (k : jsstring) : option A :=
  match o with
  | [] => None
  | (k', v) :: r => if jsstring_eqb k' k then Some v else obj_get r k
  end.

(** [o[k] = v] on own data properties: an existing property keeps its
    place, a new one goes last. *)
Fixpoint obj_set (o : list (jsstring * A)) (k : jsstring) (v : A)
  : list (jsstring * A) :=
  match o with
  | [] => [(k, v)]
  | (k', v') :: r =>
      if jsstring_eqb k' k then (k', v) :: r else (k', v') :: obj_set r k v
  end.
End Properties.

(** An array index: the canonical decimal form of an integer below 2^32-1. *)
Definition array_index (k : jsstring) : option N :=
  match all_digits 10 k with
  | Some ds =>
      let n := digits_value 10 ds in
      if jsstring_eqb (decimal n) k && (n <=? 4294967294) then Some n
      else None
  | None => None
  end.

Definition index_keys (keys : list jsstring) : list (N * jsstring) :=
  flat_map (fun k => match array_index k with
                     | Some n => [(n, k)]
                     | None => []
                     end) keys.

Definition is_array_index (k : jsstring) : bool :=
  match array_index k with Some _ => true | None => false end.

(** [Object.keys(o)]: array indices in ascending numeric order, then the
    other names in insertion order. *)
Definition Object_keys (A : Type) (o : list (jsstring * A)) : list jsstring :=
  let keys := List.map fst o in
  List.map snd (sort_by (fun a b => fst a <=? fst b) (index_keys keys))
  ++ filter (fun k => negb (is_array_index k)) keys.

(** ToBoolean. *)
Definition Boolean (v : value) : bool :=
  match v with
  | VUndefined | VNull => false
  | VBool b => b
  | VNum (Integral NaN) | VNum (Integral NegZero) => false
  | VNum (Integral (Int z)) => negb (Z.eqb z 0)
  | VNum (Integral (Infinity _)) => true
  | VNum (Near _ m e) => 10 ^ e <? m * 2 ^ 1075
  | VStr s => match s with [] => false | _ => true end
  | VObject _ _ => true
  end.

(** [typeof] of an element read from an array of strings: a string inside
    the array, [undefined] past its end. *)
Definition typeof_element (x : option jsstring) : jsstring :=
  match x with
  | Some _ => js "string"
  | None => js "undefined"
  end.

(* ===================================================================== *)
(** * Exceptions *)
(* ===================================================================== *)

(** What can be thrown: a [TypeError] of the runtime, an [Error] the module
    builds with [new Error(message)], or any value thrown by a collaborator
    (the validator, the file system, [JSON.parse]), given by the properties
    a read of it sees. *)
Inductive exn : Type :=
| TypeError
| JsError (message : jsstring)
| Thrown (v : value).

(** [Unmodelled] marks the two operations on objects that this model leaves
    out: a property named [__proto__] whose assignment would change or read
    the prototype chain, and the [length] of an array. *)
Inductive result (A : Type) : Type :=
| Ok (a : A)
| Throw (e : exn)
| Unmodelled.

Arguments Throw {A} e.
Arguments Unmodelled {A}.

Definition bind (A B : Type) (r : result A) (f : A -> result B) : result B :=
  match r with
  | Ok a => f a
  | Throw e => Throw e
  | Unmodelled => Unmodelled
  end.

Notation "x <- r ;; k" := (bind r (fun x => k))
  (at level 61, r at next level, right associativity).

(** A loop whose body can throw. *)
Fixpoint fold_result (A B : Type) (f : B -> A -> result B) (l : list A)
  (acc : B) : result B :=
  match l with
  | [] => Ok acc
  | x :: rest => acc' <- f acc x ;; fold_result f rest acc'
  end.

(* ===================================================================== *)
(** * Property access *)
(* ===================================================================== *)

Definition proto_name : jsstring := js "__proto__".
Definition length_name : jsstring := js "length".

(** Reading [o[k]] on a map from names to strings: [undefined] ([None])
    when the name is missing. *)
Definition read (o : list (jsstring * option jsstring)) (k : jsstring)
  : option jsstring :=
  match obj_get o k with
  | Some v => v
  | None => None
  end.

(** [o[k] = v] on an object literal holding strings: the inherited setter
    of [__proto__] ignores a value that is not an object. *)
Definition assign (o : list (jsstring * option jsstring)) (k : jsstring)
  (v : option jsstring) : list (jsstring * option jsstring) :=
  if jsstring_eqb k proto_name then o else obj_set o k v.

(** [current.hasOwnProperty(key)]. *)
Definition has_own_property (current : value) (key : jsstring) : result bool :=
  match current with
  | VUndefined | VNull => Throw TypeError
  | VBool _ | VNum _ => Ok false
  | VStr s =>
      Ok (jsstring_eqb key length_name
          || match array_index key with
             | Some i => i <? N.of_nat (List.length s)
             | None => false
             end)
  | VObject cls props =>
      match obj_get props (js "hasOwnProperty") with
      | Some _ => Throw TypeError   (* the own property is not callable *)
      | None =>
          match cls with
          | Array =>
              if jsstring_eqb key length_name then Unmodelled
              else Ok (match obj_get props key with Some _ => true | None => false end)
          | Plain =>
              Ok (match obj_get props key with Some _ => true | None => false end)
          end
      end
  end.

(** [current[key]].  Inherited properties other than [__proto__] are never
    read by the module: each read follows an own-property test that held or
    an assignment of the same name. *)
Definition get_prop (current : value) (key : jsstring) : result value :=
  match current with
  | VUndefined | VNull => Throw TypeError
  | VBool _ | VNum _ =>
      if jsstring_eqb key proto_name then Unmodelled else Ok VUndefined
  | VStr s =>
      if jsstring_eqb key proto_name then Unmodelled
      else if jsstring_eqb key length_name
      then Ok (VNum (Int (Z.of_nat (List.length s))))
      else
        match array_index key with
        | Some i =>
            match nth_error s (N.to_nat i) with
            | Some c => Ok (VStr [c])
            | None => Ok VUndefined
            end
        | None => Ok VUndefined
        end
  | VObject cls props =>
      if jsstring_eqb key proto_name then Unmodelled
      else
        match cls with
        | Array =>
            if jsstring_eqb key length_name then Unmodelled
            else Ok (match obj_get props key with Some v => v | None => VUndefined end)
        | Plain =>
            Ok (match obj_get props key with Some v => v | None => VUndefined end)
        end
  end.

(** [current[key] = v] in strict mode; the result is [current] after the
    assignment. *)
Definition set_prop (current : value) (key : jsstring) (v : value)
  : result value :=
  match current with
  | VUndefined | VNull => Throw TypeError
  | VBool _ | VNum _ | VStr _ =>
      if jsstring_eqb key proto_name then Ok current else Throw TypeError
  | VObject cls props =>
      if jsstring_eqb key proto_name then
        match v with
        | VObject _ _ | VNull => Unmodelled
        | _ => Ok current
        end
      else
        match cls with
        | Array =>
            if jsstring_eqb key length_name then Unmodelled
            else Ok (VObject cls (obj_set props key v))
        | Plain => Ok (VObject cls (obj_set props key v))
        end
  end.

(** A child object is changed in place, so the parent sees the change. *)
Definition store_child (parent : value) (key : jsstring) (child : value)
  : value :=
  match parent with
  | VObject cls props => VObject cls (obj_set props key child)
  | _ => parent
  end.

(* ===================================================================== *)
(** * [nativize] *)
(* ===================================================================== *)

(** [nativize(v)], lines 230-244. *)
Definition nativize (v : jsstring) : value :=
  if jsstring_eqb (integral_to_string (parseInt v)) v then VNum (Number v)
  else if jsstring_eqb v (js "true") then VBool true
  else if jsstring_eqb v (js "false") then VBool false
  else if jsstring_eqb v (js "null") then VNull
  else VStr v.

(* ===================================================================== *)
(** * [interpret] *)
(* ===================================================================== *)

Definition no_line_terminator (s : jsstring) : bool :=
  forallb (fun c => negb (is_line_terminator c)) s.

(** [raw.match(re)] for the pattern of line 182, [<number>], [<string>] or
    [<boolean>] and then any run of code units other than line terminators
    up to the end of the input: groups 1 and 2. *)
Definition match_cast (raw : jsstring) : option (jsstring * jsstring) :=
  let alternative (name : jsstring) :=
    match strip_prefix (js "<" ++ name ++ js ">") raw with
    | Some x => if no_line_terminator x then Some (name, x) else None
    | None => None
    end in
  match alternative (js "number") with
  | Some m => Some m
  | None =>
      match alternative (js "string") with
      | Some m => Some m
      | None => alternative (js "boolean")
      end
  end.

(** The expression bound to [value] in [interpret], lines 182-192. *)
Definition interpret_value (raw : jsstring) : value :=
  match match_cast raw with
  | Some (ty, x) =>
      if jsstring_eqb ty (js "number") then VNum (Number x)
      else if jsstring_eqb ty (js "boolean") then VBool (Boolean (nativize x))
      else VStr x
  | None => nativize raw
  end.

(** The expression bound to [part], line 203: the segment as a number when
    it looks like an integer, as it is otherwise. *)
Definition path_part (seg : jsstring) : integral + jsstring :=
  if jsstring_eqb (integral_to_string (parseInt seg)) seg
  then inl (parseInt seg)
  else inr seg.

(** ToPropertyKey. *)
Definition property_key (part : integral + jsstring) : jsstring :=
  match part with
  | inl n => integral_to_string n
  | inr s => s
  end.

(** The loop over the path, lines 200-220, from position [i] on: [path] is
    what is left of the path from [i], and the result is [current] after the
    loop. *)
Fixpoint walk (current : value) (path : list jsstring) (v : value)
  : result value :=
  match path with
  | [] => Ok current
  | seg :: rest =>
      let key := property_key (path_part seg) in
      match rest with
      | [] => set_prop current key v
      | _ :: _ =>
          has <- has_own_property current key ;;
          current1 <-
            (if has then Ok current
             else if jsstring_eqb (typeof_element (hd_error rest)) (js "number")
                  then set_prop current key empty_array
                  else set_prop current key empty_object) ;;
          child <- get_prop current1 key ;;
          child' <- walk child rest v ;;
          Ok (store_child current1 key child')
      end
  end.

(** [interpret(flat, delimiter)], lines 172-225. *)
Definition interpret (flat : list (jsstring * option jsstring))
  (delimiter : jsstring) : result value :=
  fold_result
    (fun obj k =>
       let path := split k delimiter in
       match read flat k with
       | None => Throw TypeError          (* undefined.match(...) *)
       | Some raw => walk obj path (interpret_value raw)
       end)
    (Object_keys flat) empty_object.

(* ===================================================================== *)
(** * [_configFromEnv] *)
(* ===================================================================== *)

(** The namespace is spliced into the pattern as it is; the model reads it
    as literal text, which is what the pattern does when the namespace has
    none of the characters below. *)
Definition is_regexp_special (c : code_unit) : bool :=
  existsb (N.eqb c) (js "\^$.|?*+()[]{}").

Definition ns_literal (ns : jsstring) : bool :=
  forallb (fun c => negb (is_regexp_special c)) ns.

(** [__[0-9]+] up to the end of the input. *)
Definition is_version_suffix (s : jsstring) : bool :=
  match s with
  | 95 :: 95 :: d :: ds => forallb is_digit (d :: ds)
  | _ => false
  end.

(** [(.+?)(__[0-9]+)?$] on what follows the namespace: group 1 takes one
    more code unit at a time ([taken], reversed) until the rest is empty or
    a version suffix. *)
Fixpoint lazy_group (taken rest : jsstring) : option jsstring :=
  match rest with
  | [] => None
  | c :: rest' =>
      if is_line_terminator c then None
      else
        match rest' with
        | [] => Some (rev (c :: taken))
        | _ :: _ =>
            if is_version_suffix rest' then Some (rev (c :: taken))
            else lazy_group (c :: taken) rest'
        end
  end.

(** Group 1 of [new RegExp(`^${ns}(.+?)(__[0-9]+)?$`)] on [cur], for a
    literal namespace: [None] when [regexp.test(cur)] is false, and
    otherwise [cur.replace(regexp, "$1")]. *)
Definition regexp_exec (ns cur : jsstring) : option jsstring :=
  match strip_prefix ns cur with
  | Some rest => lazy_group [] rest
  | None => None
  end.

(** The reducer of lines 154-160. *)
Definition flat_step (env : list (jsstring * option jsstring))
  (ns : jsstring) (agg : list (jsstring * option jsstring))
  (cur : jsstring) : list (jsstring * option jsstring) :=
  match regexp_exec ns cur with
  | Some nm => assign agg nm (read env cur)
  | None => agg
  end.

(** The constant [flat] of [_configFromEnv], lines 152-160. *)
Definition flat (env : list (jsstring * option jsstring)) (ns : jsstring)
  : list (jsstring * option jsstring) :=
  fold_left (flat_step env ns) (sort (Object_keys env)) [].

(** [_configFromEnv(env, ns, delimiter)], lines 146-162. *)
Definition _configFromEnv (env : list (jsstring * option jsstring))
  (ns delimiter : jsstring) : result value :=
  interpret (flat env ns) delimiter.

(* ===================================================================== *)
(** * The host: file system and built-ins that are given, not modelled *)
(* ===================================================================== *)

Record host : Type := {
  (** [fs.existsSync(path)] *)
  existsSync : jsstring -> bool;
  (** [fs.readFileSync(path, "utf8")] *)
  readFileSync : jsstring -> result jsstring;
  (** [fs.readdirSync(path)] *)
  readdirSync : jsstring -> result (list jsstring);
  (** [JSON.parse(text)] *)
  JSON_parse : jsstring -> result value;
  (** The text of [JSON.stringify(v, null, 2)] inside a template literal
      (the text [undefined] where it returns [undefined]), or what it
      throws: a [TypeError] on a cyclic value, whatever a [toJSON] method
      throws. *)
  JSON_stringify : value -> result jsstring;
  (** ToString on an object or on a number that is not an integer; on an
      object it calls the object's [toString] or [valueOf], and throws a
      [TypeError] when neither gives a primitive, or whatever they throw. *)
  ToString : value -> result jsstring
}.

(** The value of [`${v}`], or what the conversion throws. *)
Definition to_string (h : host) (v : value) : result jsstring :=
  match v with
  | VUndefined => Ok (js "undefined")
  | VNull => Ok (js "null")
  | VBool true => Ok (js "true")
  | VBool false => Ok (js "false")
  | VNum (Integral i) => Ok (integral_to_string i)
  | VStr s => Ok s
  | _ => ToString h v
  end.

(* ===================================================================== *)
(** * [inflateSecretsDir] *)
(* ===================================================================== *)

(** [inflateSecretsDir(path)], lines 133-139.  Each name that
    [readdirSync] returns is passed to [readFileSync] as it is. *)
Definition inflateSecretsDir (h : host) (path : jsstring)
  : result (list (jsstring * option jsstring)) :=
  names <- readdirSync h path ;;
  fold_result
    (fun env f =>
       text <- readFileSync h f ;;
       Ok (assign env f (Some text)))
    names [].

(* ===================================================================== *)
(** * [deepmerge] *)
(* ===================================================================== *)


(** Modelled from the spec: the step of [deepmerge] (a function of the
    package [@wymp/weenie-base], not part of this repository) that merges
    one property of the later object into the properties gathered so far. *)
Definition merge_step (f : value -> value -> value)
  (acc : list (jsstring * value)) (kv : jsstring * value)
  : list (jsstring * value) :=
  obj_set acc (fst kv)
    (match obj_get acc (fst kv) with
     | Some bv => f bv (snd kv)
     | None => snd kv
     end).

(** Modelled from the spec: [deepmerge] is imported from the package
    [@wymp/weenie-base], whose source is not part of this repository.  The
    spec (4.5) gives its behaviour: later overrides earlier, recursively for
    nested objects, wholesale replacement for scalars and arrays. *)
Fixpoint deepmerge2 (base add : value) {struct add} : value :=
  match add with
  | VObject Plain aprops =>
      match base with
      | VObject Plain bprops =>
          VObject Plain (fold_left (merge_step deepmerge2) aprops bprops)
      | _ => add
      end
  | _ => add
  end.

(** Modelled from the spec: [deepmerge(base, ...add)] merges the later
    arguments into the first, one after the other. *)
Definition deepmerge (base : value) (add : list value) : value :=
  fold_left deepmerge2 add base.

(* ===================================================================== *)
(** * [config] *)
(* ===================================================================== *)

(** The parameter [src] of [config]; an absent field is [None]. *)
Record sources : Type := {
  env : option (list (jsstring * option jsstring));
  defaultsFile : option jsstring;
  localsFile : option jsstring;
  secretsDir : option jsstring
}.

(** [file && fs.existsSync(file) ? JSON.parse(fs.readFileSync(file, "utf8")) : {}];
    the empty string is falsy. *)
Definition read_json (h : host) (file : option jsstring) : result value :=
  match file with
  | Some (c :: p) =>
      if existsSync h (c :: p)
      then text <- readFileSync h (c :: p) ;; JSON_parse h text
      else Ok empty_object
  | _ => Ok empty_object
  end.

(** The array [vals] of [config], lines 95-106, its elements evaluated in
    order. *)
Definition vals (h : host) (ns : jsstring) (src : sources)
  (delimiter : jsstring) : result (list value) :=
  v0 <- read_json h (defaultsFile src) ;;
  v1 <- read_json h (localsFile src) ;;
  v2 <- match secretsDir src with
        | Some (c :: p) =>
            if existsSync h (c :: p)
            then e <- inflateSecretsDir h (c :: p) ;;
                 _configFromEnv e ns delimiter
            else Ok empty_object
        | _ => Ok empty_object
        end ;;
  v3 <- match env src with
        | Some e => _configFromEnv e ns delimiter
        | None => Ok empty_object
        end ;;
  Ok [v0; v1; v2; v3].



(** The constant [config] of [config], line 109: the merged tree that is
    handed to the validator. *)
Definition merged (h : host) (ns : jsstring) (src : sources)
  (delimiter : jsstring) : result value :=
  vs <- vals h ns src delimiter ;;
  Ok (deepmerge (nth 0 vs VUndefined)
        [nth 1 vs VUndefined; nth 2 vs VUndefined; nth 3 vs VUndefined]).

Definition strict_equals_string (v : value) (s : jsstring) : bool :=
  match v with
  | VStr s' => jsstring_eqb s' s
  | _ => false
  end.

(** The message of the error built at lines 116-119, its parts converted
    to text from left to right; a conversion that throws ends the
    construction. *)
Definition failure_message (h : host) (key message details : value)
  : result jsstring :=
  k <- (if Boolean key
        then t <- to_string h key ;; Ok (t ++ js ": ")
        else Ok []) ;;
  m <- to_string h message ;;
  d <- (if Boolean details
        then t <- JSON_stringify h details ;;
             Ok ([10] ++ js "Details: " ++ t)
        else Ok []) ;;
  Ok (js "Invalid configuration: " ++ k ++ m ++ d).

(** The [catch (e)] block of [config], lines 114-123. *)
Definition on_check_failure (h : host) (e : exn) : result value :=
  match e with
  | Thrown ev =>
      name <- get_prop ev (js "name") ;;
      if Boolean name && strict_equals_string name (js "ValidationError")
      then
        key <- get_prop ev (js "key") ;;
        message <- get_prop ev (js "message") ;;
        details <- get_prop ev (js "details") ;;
        text <- failure_message h key message details ;;
        Throw (JsError text)
      else Throw e
  | _ => Throw e
  end.

(** [config(ns, src, validator, delimiter)], lines 71-124; the validator is
    its [check] function. *)
Definition config (h : host) (ns : jsstring) (src : sources)
  (validator : value -> result value) (delimiter : jsstring) : result value :=
  c <- merged h ns src delimiter ;;
  match validator c with
  | Ok checked => Ok (VObject Plain [(js "config", checked)])
  | Throw e => on_check_failure h e
  | Unmodelled => Unmodelled
  end.

(** The default value of the parameter [delimiter]. *)
Definition default_delimiter : jsstring := js "_".

(* ===================================================================== *)
(** * Notions used to state the properties *)
(* ===================================================================== *)

(** The number a run of decimal digits denotes. *)
Definition decimal_value (ds : jsstring) : N :=
  fold_left (fun a c => a * 10 + (c - 48)) ds 0.

(** The raw key [ns ++ base ++ "__" ++ digits]. *)
Definition versioned_key (ns base digits : jsstring) : jsstring :=
  ns ++ base ++ js "__" ++ digits.

(** The value at a key path, walking through nested plain objects. *)
Fixpoint lookup (p : list jsstring) (t : value) : option value :=
  match p with
  | [] => Some t
  | k :: p' =>
      match t with
      | VObject Plain props =>
          match obj_get props k with
          | Some c => lookup p' c
          | None => None
          end
      | _ => None
      end
  end.


Fixpoint distinct (keys : list jsstring) : bool :=
  match keys with
  | [] => true
  | k :: r => negb (existsb (jsstring_eqb k) r) && distinct r
  end.

(** No object of the value has two properties of one name. *)
Fixpoint well_formed (v : value) : bool :=
  match v with
  | VObject _ props =>
      distinct (List.map fst props)
      && forallb (fun kv => well_formed (snd kv)) props
  | _ => true
  end.

(** No array anywhere in the value. *)
Fixpoint array_free (v : value) : bool :=
  match v with
  | VObject Array _ => false
  | VObject Plain props => forallb (fun kv => array_free (snd kv)) props
  | _ => true
  end.

(** The validator's failure has the validation-error shape: reading its
    [name] gives the string [ValidationError]. *)
Definition is_validation_error (e : exn) : bool :=
  match e with
  | Thrown ev =>
      match get_prop ev (js "name") with
      | Ok name => strict_equals_string name (js "ValidationError")
      | _ => false
      end
  | _ => false
  end.

(** The thrown value is [null] or [undefined]. *)
Definition is_nullish (e : exn) : bool :=
  match e with
  | Thrown VNull | Thrown VUndefined => true
  | _ => false
  end.

(** Join a directory and a file name. *)
Definition path_join (dir file : jsstring) : jsstring :=
  dir ++ js "/" ++ file.

(* ===================================================================== *)
(** * Example inputs *)
(* ===================================================================== *)

Definition items_env : list (jsstring * option jsstring) :=
  [ (js "APP_items_0", Some (js "a")); (js "APP_items_1", Some (js "b")) ].

Definition mixed_width_env : list (jsstring * option jsstring) :=
  [ (js "APP_x__2", Some (js "two")); (js "APP_x__10", Some (js "ten")) ].

Definition versions_env : list (jsstring * option jsstring) :=
  [ (js "HOME", Some (js "/root"));
    (js "APP_x__2", Some (js "b"));
    (js "APP_x__1", Some (js "a")) ].

Definition undefined_env : list (jsstring * option jsstring) :=
  [ (js "APP_x", None) ].

Definition env_only (e : list (jsstring * option jsstring)) : sources :=
  {| env := Some e; defaultsFile := None; localsFile := None;
     secretsDir := None |}.

(** The error of a file-system call on a path that does not exist. *)
Definition enoent : exn :=
  Thrown (VObject Plain [ (js "name", VStr (js "Error"));
                          (js "code", VStr (js "ENOENT")) ]).

(** A host whose only directory is [/secrets], holding the one file
    [APP_token]; the working directory is elsewhere and has no such file. *)
Definition secrets_host : host :=
  {| existsSync := fun p =>
       jsstring_eqb p (js "/secrets")
       || jsstring_eqb p (js "/secrets/APP_token");
     readFileSync := fun p =>
       if jsstring_eqb p (js "/secrets/APP_token") then Ok (js "s3cret")
       else Throw enoent;
     readdirSync := fun p =>
       if jsstring_eqb p (js "/secrets") then Ok [js "APP_token"]
       else Throw enoent;
     JSON_parse := fun _ => Throw (Thrown (VObject Plain
                     [ (js "name", VStr (js "SyntaxError")) ]));
     JSON_stringify := fun _ => Ok (js "{}");
     ToString := fun _ => Ok (js "[object Object]") |}.

(** A host with a defaults file [config.json] that parses to
    [{ "db": { "port": 1, "host": "h" } }]. *)
Definition defaults_host : host :=
  {| existsSync := fun p => jsstring_eqb p (js "config.json");
     readFileSync := fun p =>
       if jsstring_eqb p (js "config.json") then Ok (js "(defaults)")
       else Throw enoent;
     readdirSync := fun _ => Throw enoent;
     JSON_parse := fun _ =>
       Ok (VObject Plain
             [ (js "db", VObject Plain [ (js "port", VNum (Int 1));
                                         (js "host", VStr (js "h")) ]) ]);
     JSON_stringify := fun _ => Ok (js "{}");
     ToString := fun _ => Ok (js "[object Object]") |}.

Definition defaults_and_env : sources :=
  {| env := Some [ (js "APP_db_port", Some (js "3306")) ];
     defaultsFile := Some (js "config.json");
     localsFile := None;
     secretsDir := None |}.

(** A validator that accepts everything, and validators that throw. *)
Definition accept_all (c : value) : result value := Ok c.
Definition throw_null (c : value) : result value := Throw (Thrown VNull).
Definition throw_validation_error (c : value) : result value :=
  Throw (Thrown (VObject Plain
                   [ (js "name", VStr (js "ValidationError"));
                     (js "key", VStr (js "db.port"));
                     (js "message", VStr (js "Expected number")) ])).

(** A failure with the full validation-error shape: name, key path,
    message and details. *)
Definition detailed_failure : value :=
  VObject Plain
    [ (js "name", VStr (js "ValidationError"));
      (js "key", VStr (js "db.port"));
      (js "message", VStr (js "Expected number"));
      (js "details",
       VObject Plain [ (js "port", VStr (js "Expected number")) ]) ].

(** The same shape under another name. *)
Definition other_failure : value :=
  VObject Plain
    [ (js "name", VStr (js "ConfigError"));
      (js "key", VStr (js "db.port"));
      (js "message", VStr (js "Expected number"));
      (js "details",
       VObject Plain [ (js "port", VStr (js "Expected number")) ]) ].

Definition throw_detailed_failure (c : value) : result value :=
  Throw (Thrown detailed_failure).
Definition throw_other_failure (c : value) : result value :=
  Throw (Thrown other_failure).

(** The details of [detailed_failure] printed with an indent of two: an
    opening brace, the property on a line of its own, a closing brace (34
    is the double quote). *)
Definition details_text : jsstring :=
  js "{" ++ [10] ++ js "  " ++ [34] ++ js "port" ++ [34] ++ js ": "
  ++ [34] ++ js "Expected number" ++ [34] ++ [10] ++ js "}".

(** [defaults_host] with a [JSON.stringify] that prints those details. *)
Definition validation_host : host :=
  {| existsSync := existsSync defaults_host;
     readFileSync := readFileSync defaults_host;
     readdirSync := readdirSync defaults_host;
     JSON_parse := JSON_parse defaults_host;
     JSON_stringify := fun _ => Ok details_text;
     ToString := ToString defaults_host |}.

(* ===================================================================== *)
(** * Further notions: paths and sources *)
(* ===================================================================== *)

(** The tree that holds [v] at the end of a path and nothing else. *)
Fixpoint nest (path : list jsstring) (v : value) : value :=
  match path with
  | [] => empty_object
  | [k] => VObject Plain [(k, v)]
  | k :: rest => VObject Plain [(k, nest rest v)]
  end.

(** No segment of the path is [__proto__]. *)
Definition no_proto_segment (path : list jsstring) : bool :=
  forallb (fun seg => negb (jsstring_eqb seg proto_name)) path.

(** Two paths part ways: at some position they have different segments,
    so neither is a prefix of the other. *)
Fixpoint diverge (p q : list jsstring) : bool :=
  match p, q with
  | a :: p', b :: q' => if jsstring_eqb a b then diverge p' q' else true
  | _, _ => false
  end.

Definition is_object (v : value) : bool :=
  match v with
  | VObject _ _ => true
  | _ => false
  end.

(** A path option that [config] does not use: unset, empty, or naming
    nothing that exists. *)
Definition unusable (h : host) (file : option jsstring) : bool :=
  match file with
  | Some (c :: p) => negb (existsSync h (c :: p))
  | _ => true
  end.

(** The five raw values whose [<boolean>] cast is [false]. *)
Definition falsy_text (x : jsstring) : bool :=
  jsstring_eqb x [] || jsstring_eqb x (js "0") || jsstring_eqb x (js "false")
  || jsstring_eqb x (js "null") || jsstring_eqb x (js "NaN").

Definition ends_in_digit (s : jsstring) : bool :=
  match rev s with
  | c :: _ => is_digit c
  | [] => false
  end.

(** Example inputs for the properties below. *)
Definition nested_conflict_env : list (jsstring * option jsstring) :=
  [ (js "APP_a", Some (js "x")); (js "APP_a_b", Some (js "y")) ].

Definition two_variables_env : list (jsstring * option jsstring) :=
  [ (js "APP_db_port", Some (js "3306"));
    (js "APP_db_host", Some (js "h"));
    (js "APP_flag", Some (js "true"));
    (js "HOME", Some (js "/root")) ].

(** A host whose working directory holds the files [APP_a] and [APP_b],
    and a directory [sub]. *)
Definition cwd_host : host :=
  {| existsSync := fun _ => true;
     readFileSync := fun p =>
       if jsstring_eqb p (js "APP_a") then Ok (js "1")
       else if jsstring_eqb p (js "APP_b") then Ok (js "two")
       else Throw enoent;
     readdirSync := fun p =>
       if jsstring_eqb p (js "/ok") then Ok [js "APP_a"; js "APP_b"]
       else if jsstring_eqb p (js "/mixed") then Ok [js "APP_a"; js "sub"]
       else Throw enoent;
     JSON_parse := fun _ => Ok empty_object;
     JSON_stringify := fun _ => Ok (js "{}");
     ToString := fun _ => Ok (js "[object Object]") |}.

(** A host on which nothing exists and every read fails. *)
Definition empty_host : host :=
  {| existsSync := fun _ => false;
     readFileSync := fun _ => Throw enoent;
     readdirSync := fun _ => Throw enoent;
     JSON_parse := fun _ => Throw enoent;
     JSON_stringify := fun _ => Ok (js "{}");
     ToString := fun _ => Ok (js "[object Object]") |}.

Definition missing_files : sources :=
  {| env := Some [ (js "APP_flag", Some (js "true")) ];
     defaultsFile := Some (js "config.json");
     localsFile := Some [];
     secretsDir := None |}.

(** No version suffix starts inside [s], after its first code unit. *)
Fixpoint inner_suffix_free (s : jsstring) : bool :=
  match s with
  | [] => true
  | _ :: s' => negb (is_version_suffix s') && inner_suffix_free s'
  end.

(** No segment of the path is [__proto__] or [hasOwnProperty], the two
    names that the walk of [interpret] does not treat as plain keys. *)
Definition plain_segments (path : list jsstring) : bool :=
  forallb (fun seg => negb (jsstring_eqb seg proto_name)
                      && negb (jsstring_eqb seg (js "hasOwnProperty"))) path.

(** The flat map of three variables. *)
Definition three_names : list (jsstring * option jsstring) :=
  [ (js "db_port", Some (js "3306"));
    (js "db_host", Some (js "h"));
    (js "flag", Some (js "true")) ].

(** Every path of the subtree [t], which sits at [pre], leads towards the
    path of a key of the flat map, and a scalar only sits at the end of
    one. *)
Definition covered (fl : list (jsstring * option jsstring)) (d : jsstring)
  (pre : list jsstring) (t : value) : Prop :=
  forall p v, p <> [] -> lookup p t = Some v ->
  exists k q, In k (List.map fst fl) /\ split k d = pre ++ p ++ q
              /\ (is_object v = false -> q = []).





(* ===================================================================== *)
(** * Proof automation *)
(* ===================================================================== *)

(** Case analysis on a code unit [c] known to be a digit by [H], given the
    lemma [cases] that lists the ten digits. *)
Ltac each_digit cases H :=
  destruct (cases _ H) as [-> | [-> | [-> | [-> | [-> | [-> | [-> |
    [-> | [-> | ->]]]]]]]]].

(* ===================================================================== *)
(** * Strings: equality, order, prefixes *)
(* ===================================================================== *)

Lemma jsstring_eqb_eq (a b : jsstring) : jsstring_eqb a b = true <-> a = b.
Proof.
  revert b; induction a as [|x a IH]; intros [|y b]; simpl;
    try (split; [discriminate | congruence]); try tauto.
  rewrite andb_true_iff, N.eqb_eq, IH. split.
  - intros [-> ->]; reflexivity.
  - intros H; inversion H; auto.
Qed.

Lemma jsstring_eqb_refl (a : jsstring) : jsstring_eqb a a = true.
Proof. apply jsstring_eqb_eq; reflexivity. Qed.

Lemma jsstring_eqb_neq (a b : jsstring) : jsstring_eqb a b = false <-> a <> b.
Proof.
  rewrite <- jsstring_eqb_eq. destruct (jsstring_eqb a b); split; congruence.
Qed.

Lemma jsstring_eqb_sym (a b : jsstring) : jsstring_eqb a b = jsstring_eqb b a.
Proof.
  destruct (jsstring_eqb a b) eqn:E.
  - apply jsstring_eqb_eq in E; subst; symmetry; apply jsstring_eqb_refl.
  - apply jsstring_eqb_neq in E. symmetry; apply jsstring_eqb_neq; congruence.
Qed.

Lemma jsstring_leb_refl (a : jsstring) : jsstring_leb a a = true.
Proof.
  induction a as [|x a IH]; simpl; [reflexivity|].
  rewrite N.ltb_irrefl; exact IH.
Qed.

Lemma jsstring_leb_total (a b : jsstring) :
  jsstring_leb a b = false -> jsstring_leb b a = true.
Proof.
  revert b; induction a as [|x a IH]; intros [|y b]; simpl; try congruence.
  destruct (N.ltb_spec x y), (N.ltb_spec y x); try congruence; try lia.
  apply IH.
Qed.

Lemma jsstring_leb_trans (a b c : jsstring) :
  jsstring_leb a b = true -> jsstring_leb b c = true -> jsstring_leb a c = true.
Proof.
  revert b c; induction a as [|x a IH]; intros [|y b] [|z c]; simpl;
    try congruence.
  destruct (N.ltb_spec x y), (N.ltb_spec y x), (N.ltb_spec y z),
    (N.ltb_spec z y), (N.ltb_spec x z), (N.ltb_spec z x);
    try congruence; try lia.
  apply IH.
Qed.

Lemma jsstring_leb_antisym (a b : jsstring) :
  jsstring_leb a b = true -> jsstring_leb b a = true -> a = b.
Proof.
  revert b; induction a as [|x a IH]; intros [|y b]; simpl; try congruence.
  destruct (N.ltb_spec x y), (N.ltb_spec y x); try congruence; try lia.
  intros H1 H2. f_equal; [lia | auto].
Qed.

Lemma jsstring_leb_app (p a b : jsstring) :
  jsstring_leb (p ++ a) (p ++ b) = jsstring_leb a b.
Proof.
  induction p as [|x p IH]; simpl; [reflexivity|].
  rewrite N.ltb_irrefl; exact IH.
Qed.

Lemma strip_prefix_app (p r : jsstring) : strip_prefix p (p ++ r) = Some r.
Proof.
  induction p as [|x p IH]; simpl; [reflexivity|].
  rewrite N.eqb_refl; exact IH.
Qed.

Lemma strip_prefix_Some (p s r : jsstring) :
  strip_prefix p s = Some r -> s = p ++ r.
Proof.
  revert s; induction p as [|x p IH]; intros s; simpl.
  - intros H; inversion H; reflexivity.
  - destruct s as [|y s]; [discriminate|].
    destruct (N.eqb_spec x y); [|discriminate].
    intros H; apply IH in H; subst; reflexivity.
Qed.

(* ===================================================================== *)
(** * Own properties *)
(* ===================================================================== *)

Section PropertyLemmas.
Variable A : Type.
Implicit Types (o : list (jsstring * A)) (k : jsstring).

Lemma obj_get_set_same o k (v : A) : obj_get (obj_set o k v) k = Some v.
Proof.
  induction o as [|[k' v'] o IH]; simpl.
  - rewrite jsstring_eqb_refl; reflexivity.
  - destruct (jsstring_eqb k' k) eqn:E; simpl; rewrite E; auto.
Qed.

Lemma obj_get_set_other o k k' (v : A) :
  k <> k' -> obj_get (obj_set o k v) k' = obj_get o k'.
Proof.
  intros Hne. induction o as [|[k0 v0] o IH]; simpl.
  - apply jsstring_eqb_neq in Hne. rewrite Hne; reflexivity.
  - destruct (jsstring_eqb k0 k) eqn:E; simpl.
    + apply jsstring_eqb_eq in E; subst k0.
      apply jsstring_eqb_neq in Hne. rewrite Hne; reflexivity.
    + rewrite IH; reflexivity.
Qed.

Lemma obj_get_In o k (v : A) : obj_get o k = Some v -> In (k, v) o.
Proof.
  induction o as [|[k0 v0] o IH]; simpl; [discriminate|].
  destruct (jsstring_eqb k0 k) eqn:E.
  - apply jsstring_eqb_eq in E; subst. intros H; inversion H; auto.
  - auto.
Qed.


Lemma obj_set_keys o k (v : A) :
  forall k', In k' (List.map fst (obj_set o k v))
             <-> k' = k \/ In k' (List.map fst o).
Proof.
  intros k'. induction o as [|[k0 v0] o IH]; simpl.
  - intuition.
  - destruct (jsstring_eqb k0 k) eqn:E; simpl.
    + apply jsstring_eqb_eq in E; subst. intuition.
    + rewrite IH. intuition.
Qed.
End PropertyLemmas.

Lemma read_assign_same o k v :
  k <> proto_name -> read (assign o k v) k = v.
Proof.
  intros H. unfold read, assign. apply jsstring_eqb_neq in H. rewrite H.
  rewrite obj_get_set_same; reflexivity.
Qed.

Lemma read_assign_other o k k' v :
  k <> k' -> read (assign o k v) k' = read o k'.
Proof.
  intros H. unfold read, assign. destruct (jsstring_eqb k proto_name); auto.
  rewrite obj_get_set_other by assumption; reflexivity.
Qed.

(* ===================================================================== *)
(** * The value interpreter: explicit casts *)
(* ===================================================================== *)

Lemma match_cast_number (x : jsstring) :
  match_cast (js "<number>" ++ x)
  = if no_line_terminator x then Some (js "number", x) else None.
Proof.
  unfold match_cast, no_line_terminator. cbn.
  destruct (forallb _ x); reflexivity.
Qed.

Lemma match_cast_string (x : jsstring) :
  match_cast (js "<string>" ++ x)
  = if no_line_terminator x then Some (js "string", x) else None.
Proof.
  unfold match_cast, no_line_terminator. cbn.
  destruct (forallb _ x); reflexivity.
Qed.

Lemma match_cast_boolean (x : jsstring) :
  match_cast (js "<boolean>" ++ x)
  = if no_line_terminator x then Some (js "boolean", x) else None.
Proof.
  unfold match_cast, no_line_terminator. cbn.
  destruct (forallb _ x); reflexivity.
Qed.

(** A flat map with the single name [n]: [interpret] stores the interpreted
    value under [n]. *)
Lemma interpret_single (raw : jsstring) :
  interpret [(js "n", Some raw)] default_delimiter
  = Ok (VObject Plain [(js "n", interpret_value raw)]).
Proof. reflexivity. Qed.

(** C6 (amended): for [X] without a line terminator, [<string>X] is the
    literal string [X] with no inference applied, and [<boolean>X] is the
    boolean coercion of the native inference of [X]; in particular
    [APP_n="<string>5"] yields [{ n: "5" }]. *)
Theorem explicit_string_and_boolean_cast (x : jsstring) :
  no_line_terminator x = true ->
  interpret_value (js "<string>" ++ x) = VStr x
  /\ interpret_value (js "<boolean>" ++ x) = VBool (Boolean (nativize x))
  /\ _configFromEnv [(js "APP_n", Some (js "<string>5"))] (js "APP_")
       default_delimiter
     = Ok (VObject Plain [(js "n", VStr (js "5"))]).
Proof.
  intros Hx. unfold interpret_value.
  rewrite match_cast_string, match_cast_boolean, Hx.
  repeat split; reflexivity.
Qed.

Lemma explicit_string_and_boolean_cast_witness :
  no_line_terminator (js "5") = true
  /\ interpret_value (js "<string>" ++ js "5") = VStr (js "5")
  /\ interpret_value (js "<boolean>" ++ js "5")
     = VBool (Boolean (nativize (js "5"))).
Proof.
  split; [reflexivity|].
  pose proof (explicit_string_and_boolean_cast (js "5") eq_refl) as H.
  split; [apply H | apply H].
Defined.

(** C6 (as stated) fails on a value with a line terminator: the pattern
    does not match, and the whole raw value, [<string>] included, comes
    back as the string. *)
Lemma string_cast_line_terminator_counterexample :
  interpret_value (js "<string>a" ++ [10] ++ js "b")
  = VStr (js "<string>a" ++ [10] ++ js "b")
  /\ interpret_value (js "<string>a" ++ [10] ++ js "b")
     <> VStr (js "a" ++ [10] ++ js "b").
Proof. split; [reflexivity | discriminate]. Qed.

(** C9 (amended): for [X] without a line terminator that is not a numeric
    literal, [<number>X] is interpreted as NaN and nothing is thrown. *)
Theorem malformed_number_cast_is_NaN (x : jsstring) :
  no_line_terminator x = true ->
  StringNumericLiteral x = None ->
  interpret_value (js "<number>" ++ x) = VNum NaN
  /\ interpret [(js "n", Some (js "<number>" ++ x))] default_delimiter
     = Ok (VObject Plain [(js "n", VNum NaN)]).
Proof.
  intros Hx Hnum.
  assert (H : interpret_value (js "<number>" ++ x) = VNum NaN).
  { unfold interpret_value. rewrite match_cast_number, Hx. cbn.
    unfold Number. rewrite Hnum. reflexivity. }
  split; [exact H|]. rewrite interpret_single, H. reflexivity.
Qed.

Lemma malformed_number_cast_is_NaN_witness :
  no_line_terminator (js "abc") = true
  /\ StringNumericLiteral (js "abc") = None
  /\ interpret_value (js "<number>abc") = VNum NaN.
Proof.
  split; [reflexivity|]. split; [reflexivity|].
  exact (proj1 (malformed_number_cast_is_NaN (js "abc") eq_refl eq_refl)).
Defined.

(** C9 (as stated) fails on a value with a line terminator, such as a
    secret file that ends in a newline: [abc
] is not a numeric literal,
    yet the result is the raw string and not NaN. *)
Lemma number_cast_line_terminator_counterexample :
  StringNumericLiteral (js "abc" ++ [10]) = None
  /\ interpret_value (js "<number>" ++ js "abc" ++ [10])
     = VStr (js "<number>abc" ++ [10]).
Proof. split; reflexivity. Qed.

(* ===================================================================== *)
(** * The validator gate *)
(* ===================================================================== *)

Lemma get_prop_name_total (ev : value) (k : jsstring) :
  k <> proto_name -> k <> length_name ->
  ev <> VNull -> ev <> VUndefined ->
  exists v, get_prop ev k = Ok v.
Proof.
  intros Hp Hl Hn Hu.
  apply jsstring_eqb_neq in Hp. apply jsstring_eqb_neq in Hl.
  destruct ev as [| | b | n | s | cls props]; simpl; try congruence;
    rewrite Hp; try (eexists; reflexivity).
  - rewrite Hl. destruct (array_index k); [|eexists; reflexivity].
    destruct (nth_error s (N.to_nat n)); eexists; reflexivity.
  - destruct cls; [|rewrite Hl]; eexists; reflexivity.
Qed.

(** The handler on a failure named [ValidationError] whose parts convert
    to text: one [Error] with the message spelled out. *)
Lemma on_check_failure_wrapped (h : host) (ev key message details : value)
  (ktext mtext dtext : jsstring) :
  get_prop ev (js "name") = Ok (VStr (js "ValidationError")) ->
  get_prop ev (js "key") = Ok key ->
  get_prop ev (js "message") = Ok message ->
  get_prop ev (js "details") = Ok details ->
  (Boolean key = true -> to_string h key = Ok ktext) ->
  to_string h message = Ok mtext ->
  (Boolean details = true -> JSON_stringify h details = Ok dtext) ->
  on_check_failure h (Thrown ev)
  = Throw (JsError
             (js "Invalid configuration: "
              ++ (if Boolean key then ktext ++ js ": " else [])
              ++ mtext
              ++ (if Boolean details
                  then [10] ++ js "Details: " ++ dtext
                  else []))).
Proof.
  intros Hname Hkey Hmsg Hdet Hk Hm Hd.
  cbn [on_check_failure]. rewrite Hname. cbn [bind].
  change (Boolean (VStr (js "ValidationError"))
          && strict_equals_string (VStr (js "ValidationError"))
               (js "ValidationError")) with true.
  cbv iota. rewrite Hkey, Hmsg, Hdet. cbn [bind].
  unfold failure_message.
  destruct (Boolean key); [rewrite (Hk eq_refl)|]; cbn [bind];
    rewrite Hm; cbn [bind];
    (destruct (Boolean details); [rewrite (Hd eq_refl)|]); cbn [bind];
    reflexivity.
Qed.

Lemma on_check_failure_other (h : host) (e : exn) :
  is_validation_error e = false -> is_nullish e = false ->
  on_check_failure h e = Throw e.
Proof.
  destruct e as [| m | ev]; simpl; try reflexivity.
  intros Hve Hnull.
  assert (Hn : ev <> VNull) by (intros ->; discriminate).
  assert (Hu : ev <> VUndefined) by (intros ->; discriminate).
  destruct (get_prop_name_total (k := js "name") ltac:(discriminate)
              ltac:(discriminate) Hn Hu) as [name Hname].
  rewrite Hname in *. simpl. rewrite Hve, andb_false_r. reflexivity.
Qed.

(** C8 (amended): when the merged tree is built and the validator throws.
    A failure whose [name] is [ValidationError], and whose key path,
    message and details convert to text, is rethrown as one [Error] whose
    message is [Invalid configuration: ], then the key path and a colon
    when the key path is truthy, then the message, then, when the details
    are truthy, a line break, [Details: ] and the details as
    [JSON.stringify] prints them with an indent of two.  Every other
    thrown value, [null] and [undefined] apart, is propagated unchanged. *)
Theorem validation_failure_is_wrapped (h : host) (ns : jsstring)
  (src : sources) (validator : value -> result value) (delimiter : jsstring)
  (c : value) (e : exn) :
  ns_literal ns = true ->
  merged h ns src delimiter = Ok c ->
  validator c = Throw e ->
  (forall (ev key message details : value) (ktext mtext dtext : jsstring),
      e = Thrown ev ->
      get_prop ev (js "name") = Ok (VStr (js "ValidationError")) ->
      get_prop ev (js "key") = Ok key ->
      get_prop ev (js "message") = Ok message ->
      get_prop ev (js "details") = Ok details ->
      (Boolean key = true -> to_string h key = Ok ktext) ->
      to_string h message = Ok mtext ->
      (Boolean details = true -> JSON_stringify h details = Ok dtext) ->
      config h ns src validator delimiter
      = Throw (JsError
                 (js "Invalid configuration: "
                  ++ (if Boolean key then ktext ++ js ": " else [])
                  ++ mtext
                  ++ (if Boolean details
                      then [10] ++ js "Details: " ++ dtext
                      else []))))
  /\ (is_validation_error e = false -> is_nullish e = false ->
      config h ns src validator delimiter = Throw e).
Proof.
  intros _ Hm Hv. unfold config. rewrite Hm. cbn [bind]. rewrite Hv. split.
  - intros ev key message details ktext mtext dtext -> .
    apply on_check_failure_wrapped.
  - apply on_check_failure_other.
Qed.

Lemma validation_failure_is_wrapped_witness :
  config validation_host (js "APP_") defaults_and_env throw_detailed_failure
    default_delimiter
  = Throw (JsError (js "Invalid configuration: db.port: Expected number"
                    ++ [10] ++ js "Details: " ++ details_text))
  /\ config validation_host (js "APP_") defaults_and_env
       throw_validation_error default_delimiter
     = Throw (JsError (js "Invalid configuration: db.port: Expected number"))
  /\ config validation_host (js "APP_") defaults_and_env throw_other_failure
       default_delimiter
     = Throw (Thrown other_failure).
Proof.
  split; [|split].
  - exact (proj1 (@validation_failure_is_wrapped validation_host (js "APP_")
                    defaults_and_env throw_detailed_failure default_delimiter
                    _ _ eq_refl eq_refl eq_refl)
             detailed_failure (VStr (js "db.port"))
             (VStr (js "Expected number"))
             (VObject Plain [ (js "port", VStr (js "Expected number")) ])
             (js "db.port") (js "Expected number") details_text
             eq_refl eq_refl eq_refl eq_refl eq_refl
             (fun _ => eq_refl) eq_refl (fun _ => eq_refl)).
  - refine (proj1 (@validation_failure_is_wrapped validation_host (js "APP_")
                    defaults_and_env throw_validation_error default_delimiter
                    _ _ eq_refl eq_refl eq_refl)
             _ (VStr (js "db.port")) (VStr (js "Expected number")) VUndefined
             (js "db.port") (js "Expected number") []
             eq_refl eq_refl eq_refl eq_refl eq_refl
             (fun _ => eq_refl) eq_refl (fun H => _)).
    discriminate H.
  - exact (proj2 (@validation_failure_is_wrapped validation_host (js "APP_")
                    defaults_and_env throw_other_failure default_delimiter
                    _ _ eq_refl eq_refl eq_refl) eq_refl eq_refl).
Defined.

(** C8 (as stated) fails for a failure that carries the whole shape, a
    name, a key path, a message and details, under a name other than
    [ValidationError]: the handler tests the name and rethrows the failure
    as it is, without wrapping it. *)
Lemma other_name_counterexample :
  throw_other_failure empty_object = Throw (Thrown other_failure)
  /\ get_prop other_failure (js "name") = Ok (VStr (js "ConfigError"))
  /\ get_prop other_failure (js "key") = Ok (VStr (js "db.port"))
  /\ get_prop other_failure (js "message") = Ok (VStr (js "Expected number"))
  /\ get_prop other_failure (js "details")
     = Ok (VObject Plain [ (js "port", VStr (js "Expected number")) ])
  /\ config validation_host (js "APP_") defaults_and_env throw_other_failure
       default_delimiter
     = Throw (Thrown other_failure).
Proof. repeat split; reflexivity. Qed.

(** A validator that throws [null]: reading [e.name] in the handler raises
    a [TypeError], and that is what leaves [config], not the thrown
    value. *)
Lemma thrown_null_raises_TypeError :
  throw_null empty_object = Throw (Thrown VNull)
  /\ is_validation_error (Thrown VNull) = false
  /\ config defaults_host (js "APP_") defaults_and_env throw_null
       default_delimiter
     = Throw TypeError.
Proof. repeat split; reflexivity. Qed.

(* ===================================================================== *)
(** * Array inflation *)
(* ===================================================================== *)

(** The test of line 211 never holds: an element of the path is a string,
    and past the end it is [undefined]. *)
Lemma typeof_element_not_number (x : option jsstring) :
  jsstring_eqb (typeof_element x) (js "number") = false.
Proof. destruct x; reflexivity. Qed.

(** The key under which a segment is stored is the segment itself: a
    segment turned into a number is turned back by the property access. *)
Lemma property_key_path_part (seg : jsstring) :
  property_key (path_part seg) = seg.
Proof.
  unfold path_part.
  destruct (jsstring_eqb (integral_to_string (parseInt seg)) seg) eqn:E;
    [|reflexivity].
  apply jsstring_eqb_eq in E. exact E.
Qed.

(** C1 (the code at the claim's input): [APP_items_0=a] and
    [APP_items_1=b] yield [{ items: { "0": "a", "1": "b" } }], where
    [items] is a plain object keyed by ["0"] and ["1"], and not the array
    [["a", "b"]]. *)
Theorem items_become_an_object :
  _configFromEnv items_env (js "APP_") default_delimiter
  = Ok (VObject Plain
          [(js "items",
            VObject Plain [(js "0", VStr (js "a")); (js "1", VStr (js "b"))])])
  /\ _configFromEnv items_env (js "APP_") default_delimiter
     <> Ok (VObject Plain
              [(js "items", js_array [VStr (js "a"); VStr (js "b")])]).
Proof. split; [reflexivity | discriminate]. Qed.

(* ===================================================================== *)
(** * The secrets directory *)
(* ===================================================================== *)

(** [inflateSecretsDir] reads each entry under its bare name. *)
Lemma inflateSecretsDir_reads_bare_names (h : host) (path : jsstring)
  (names : list jsstring) :
  readdirSync h path = Ok names ->
  inflateSecretsDir h path
  = fold_result
      (fun acc f => text <- readFileSync h f ;; Ok (assign acc f (Some text)))
      names [].
Proof. intros H. unfold inflateSecretsDir. rewrite H. reflexivity. Qed.

(** C4 (the code at a failing input): the directory [/secrets] holds the
    file [APP_token] with contents [s3cret]; [inflateSecretsDir] asks for
    the file [APP_token] instead of [/secrets/APP_token] and the read
    fails, so no entry is produced. *)
Theorem secret_is_read_outside_its_directory :
  readdirSync secrets_host (js "/secrets") = Ok [js "APP_token"]
  /\ readFileSync secrets_host (path_join (js "/secrets") (js "APP_token"))
     = Ok (js "s3cret")
  /\ inflateSecretsDir secrets_host (js "/secrets") = Throw enoent
  /\ inflateSecretsDir secrets_host (js "/secrets")
     <> Ok [(js "APP_token", Some (js "s3cret"))].
Proof. repeat split; try reflexivity. discriminate. Qed.

(* ===================================================================== *)
(** * Sorting and [Object.keys] *)
(* ===================================================================== *)

Section Sorting.
Variable A : Type.
Variable leb : A -> A -> bool.
Hypothesis leb_total : forall x y, leb x y = false -> leb y x = true.
Hypothesis leb_trans :
  forall x y z, leb x y = true -> leb y z = true -> leb x z = true.

Lemma In_insert_sorted (x y : A) (l : list A) :
  In y (insert_sorted leb x l) <-> y = x \/ In y l.
Proof.
  induction l as [|z l IH]; simpl.
  - intuition.
  - destruct (leb x z); simpl; [intuition|]. rewrite IH. intuition.
Qed.

Lemma In_sort_by (y : A) (l : list A) : In y (sort_by leb l) <-> In y l.
Proof.
  induction l as [|x l IH]; simpl; [tauto|].
  rewrite In_insert_sorted, IH. intuition.
Qed.

Lemma insert_sorted_sorted (x : A) (l : list A) :
  StronglySorted (fun a b => leb a b = true) l ->
  StronglySorted (fun a b => leb a b = true) (insert_sorted leb x l).
Proof.
  induction 1 as [|z l Hs IH Hall]; simpl.
  - constructor; constructor.
  - destruct (leb x z) eqn:E.
    + constructor; [constructor; assumption|].
      constructor; [assumption|].
      rewrite Forall_forall in *. intros w Hw. eauto.
    + constructor; [assumption|].
      rewrite Forall_forall in *. intros w Hw.
      apply In_insert_sorted in Hw. destruct Hw as [-> | Hw]; auto.
Qed.

Lemma sort_by_sorted (l : list A) :
  StronglySorted (fun a b => leb a b = true) (sort_by leb l).
Proof.
  induction l as [|x l IH]; simpl; [constructor|].
  apply insert_sorted_sorted; assumption.
Qed.
End Sorting.

Lemma In_sort (k : jsstring) (keys : list jsstring) :
  In k (sort keys) <-> In k keys.
Proof. apply In_sort_by. Qed.

Lemma sort_sorted (keys : list jsstring) :
  StronglySorted (fun a b => jsstring_leb a b = true) (sort keys).
Proof.
  apply sort_by_sorted.
  - apply jsstring_leb_total.
  - apply jsstring_leb_trans.
Qed.

Lemma In_index_keys (n : N) (k : jsstring) (keys : list jsstring) :
  In (n, k) (index_keys keys) <-> In k keys /\ array_index k = Some n.
Proof.
  unfold index_keys. rewrite in_flat_map. split.
  - intros [k' [Hin H]]. destruct (array_index k') eqn:E; simpl in H.
    + destruct H as [H|[]]. inversion H; subst. auto.
    + destruct H.
  - intros [Hin E]. exists k. rewrite E. simpl; auto.
Qed.

(** [Object.keys] lists exactly the own property names. *)
Lemma In_Object_keys (A : Type) (o : list (jsstring * A)) (k : jsstring) :
  In k (Object_keys o) <-> In k (List.map fst o).
Proof.
  unfold Object_keys. rewrite in_app_iff, in_map_iff, filter_In. split.
  - intros [[[n k'] [Hk Hin]] | [Hin _]]; [|assumption].
    simpl in Hk; subst. apply In_sort_by in Hin.
    apply In_index_keys in Hin. tauto.
  - intros Hin. unfold is_array_index.
    destruct (array_index k) as [n|] eqn:E.
    + left. exists (n, k). split; [reflexivity|].
      apply In_sort_by. apply In_index_keys. auto.
    + right. auto.
Qed.

(* ===================================================================== *)
(** * Undefined values in the environment *)
(* ===================================================================== *)

Lemma fold_result_each (A B : Type) (f : B -> A -> result B) (l : list A) :
  forall acc r, fold_result f l acc = Ok r ->
  forall x, In x l -> exists a a', f a x = Ok a'.
Proof.
  induction l as [|y l IH]; intros acc r H x Hin; [destruct Hin|].
  simpl in H. destruct (f acc y) as [acc'| |] eqn:E; try discriminate.
  destruct Hin as [-> | Hin]; [exists acc, acc'; exact E|].
  exact (IH _ _ H _ Hin).
Qed.

(** A flat map that holds an undefined value never comes through
    [interpret]. *)
Lemma interpret_undefined_never_succeeds
  (fl : list (jsstring * option jsstring)) (delimiter k : jsstring)
  (r : value) :
  In k (List.map fst fl) -> read fl k = None ->
  interpret fl delimiter <> Ok r.
Proof.
  intros Hin Hread H. unfold interpret in H.
  apply In_Object_keys in Hin.
  destruct (fold_result_each _ _ _ H _ Hin) as [a [a' E]].
  rewrite Hread in E. discriminate.
Qed.

(** C10: an environment map with the key [APP_x] whose value is
    [undefined].  The key matches the namespace, the undefined value is
    stored in the flat map under [x], [interpret] throws a [TypeError] when
    it calls [match] on it, and so does [config], whatever the host, the
    validator and the delimiter. *)
Theorem undefined_value_aborts :
  exists e : list (jsstring * option jsstring),
    In (js "APP_x") (Object_keys e)
    /\ read e (js "APP_x") = None
    /\ regexp_exec (js "APP_") (js "APP_x") = Some (js "x")
    /\ flat e (js "APP_") = [(js "x", None)]
    /\ (forall delimiter,
          interpret (flat e (js "APP_")) delimiter = Throw TypeError)
    /\ (forall h validator delimiter,
          config h (js "APP_") (env_only e) validator delimiter
          = Throw TypeError).
Proof.
  exists undefined_env. repeat split; try reflexivity.
  simpl; auto.
Qed.

(* ===================================================================== *)
(** * The key flattener *)
(* ===================================================================== *)

Section Flatten.
Variable env : list (jsstring * option jsstring).
Variable ns : jsstring.

(** Keys that agree with [v] on the base name [nm] leave it at [v]. *)
Lemma fold_keeps (l : list jsstring) agg (nm : jsstring)
  (v : option jsstring) :
  (forall k, In k l -> regexp_exec ns k = Some nm -> read env k = v) ->
  read agg nm = v ->
  read (fold_left (flat_step env ns) l agg) nm = v.
Proof.
  revert agg. induction l as [|cur l IH]; intros agg Hall Hagg; simpl.
  - exact Hagg.
  - apply IH; [intros k Hk; apply Hall; right; exact Hk|].
    unfold flat_step. destruct (regexp_exec ns cur) as [nm'|] eqn:E;
      [|exact Hagg].
    destruct (jsstring_eqb nm' nm) eqn:Enm.
    + apply jsstring_eqb_eq in Enm; subst nm'.
      destruct (jsstring_eqb nm proto_name) eqn:Ep.
      * unfold assign. rewrite Ep. exact Hagg.
      * apply jsstring_eqb_neq in Ep. rewrite read_assign_same by exact Ep.
        apply Hall; [left; reflexivity | exact E].
    + apply jsstring_eqb_neq in Enm.
      rewrite read_assign_other by exact Enm. exact Hagg.
Qed.

(** The value stored under a base name is that of the greatest raw key,
    in the order of the sort, among the keys with that base name. *)
Lemma flat_last_wins (k nm : jsstring) :
  In k (List.map fst env) ->
  regexp_exec ns k = Some nm ->
  nm <> proto_name ->
  (forall k', In k' (List.map fst env) -> regexp_exec ns k' = Some nm ->
              jsstring_leb k' k = true) ->
  read (flat env ns) nm = read env k.
Proof.
  intros Hin Hk Hproto Hmax. unfold flat.
  assert (Hs : In k (sort (Object_keys env)))
    by (apply In_sort, In_Object_keys; exact Hin).
  pose proof (sort_sorted (Object_keys env)) as Hsorted.
  destruct (in_split _ _ Hs) as [l1 [l2 Hsplit]].
  rewrite Hsplit in *. rewrite fold_left_app. simpl.
  apply fold_keeps.
  - intros k' Hk' Hbase.
    assert (Hle : jsstring_leb k k' = true).
    { clear - Hsorted Hk'. induction l1 as [|x l1 IH]; simpl in Hsorted.
      - inversion Hsorted as [|? ? _ Hall]; subst.
        rewrite Forall_forall in Hall. auto.
      - inversion Hsorted; subst. auto. }
    assert (Hge : jsstring_leb k' k = true).
    { apply Hmax; [|exact Hbase].
      apply In_Object_keys, In_sort. rewrite Hsplit.
      apply in_or_app; right; right; exact Hk'. }
    rewrite (jsstring_leb_antisym _ _ Hle Hge). reflexivity.
  - unfold flat_step at 1. rewrite Hk. apply read_assign_same; exact Hproto.
Qed.
End Flatten.

Lemma read_Some_In (o : list (jsstring * option jsstring)) (k v : jsstring) :
  read o k = Some v -> In k (List.map fst o).
Proof.
  unfold read. destruct (obj_get o k) as [w|] eqn:E; [|discriminate].
  intros _. apply obj_get_In in E. apply (in_map fst) in E. exact E.
Qed.



(* ===================================================================== *)
(** * Version suffixes *)
(* ===================================================================== *)

Lemma forallb_digit_underscore (q d : jsstring) :
  forallb is_digit (q ++ js "__" ++ d) = false.
Proof.
  induction q as [|c q IH]; [reflexivity|].
  change ((c :: q) ++ js "__" ++ d) with (c :: (q ++ js "__" ++ d)).
  cbn [forallb]. rewrite IH. apply andb_false_r.
Qed.

Lemma not_version_suffix (q d : jsstring) :
  q <> [] -> is_version_suffix (q ++ js "__" ++ d) = false.
Proof.
  intros Hq. destruct q as [|a [|b q]]; [congruence| |].
  - simpl. destruct a as [|a]; [reflexivity|].
    destruct (Pos.eq_dec a 95) as [->|Hne]; [reflexivity|].
    repeat (destruct a as [a|a|]; try reflexivity); congruence.
  - change ((a :: b :: q) ++ js "__" ++ d)
      with (a :: b :: (q ++ js "__" ++ d)).
    unfold is_version_suffix.
    destruct (N.eq_dec a 95) as [->|Ha].
    + destruct (N.eq_dec b 95) as [->|Hb].
      * destruct (q ++ js "__" ++ d) as [|x r] eqn:E; [reflexivity|].
        rewrite <- E. apply forallb_digit_underscore.
      * destruct b as [|b]; [reflexivity|].
        repeat (destruct b as [b|b|]; try reflexivity); congruence.
    + destruct a as [|a]; [reflexivity|].
      repeat (destruct a as [a|a|]; try reflexivity); congruence.
Qed.

Lemma lazy_group_step (taken : jsstring) (c c' : code_unit) (r : jsstring) :
  lazy_group taken (c :: c' :: r)
  = if is_line_terminator c then None
    else if is_version_suffix (c' :: r) then Some (rev (c :: taken))
         else lazy_group (c :: taken) (c' :: r).
Proof. reflexivity. Qed.

Lemma lazy_group_base (c : code_unit) (base taken d : jsstring) :
  no_line_terminator (c :: base) = true ->
  d <> [] -> forallb is_digit d = true ->
  lazy_group taken (c :: base ++ js "__" ++ d)
  = Some (rev taken ++ c :: base).
Proof.
  revert c taken. induction base as [|c' base IH]; intros c taken Hlt Hd Hdig.
  - simpl in Hlt. rewrite andb_true_r in Hlt. apply negb_true_iff in Hlt.
    change ([] ++ js "__" ++ d) with (95 :: 95 :: d).
    destruct d as [|x d]; [congruence|].
    cbn [lazy_group]. rewrite Hlt.
    change (is_version_suffix (95 :: 95 :: x :: d))
      with (forallb is_digit (x :: d)).
    rewrite Hdig. reflexivity.
  - assert (Hc : is_line_terminator c = false).
    { simpl in Hlt. apply andb_true_iff in Hlt. destruct Hlt as [H _].
      apply negb_true_iff in H; exact H. }
    assert (Hlt' : no_line_terminator (c' :: base) = true).
    { simpl in Hlt. apply andb_true_iff in Hlt. apply Hlt. }
    change (c :: (c' :: base) ++ js "__" ++ d)
      with (c :: c' :: (base ++ js "__" ++ d)).
    rewrite lazy_group_step, Hc.
    change (c' :: base ++ js "__" ++ d) with ((c' :: base) ++ js "__" ++ d)
      at 1.
    rewrite not_version_suffix by discriminate.
    rewrite IH by assumption. simpl. rewrite <- app_assoc. reflexivity.
Qed.

(** The pattern strips the version suffix from a raw key. *)
Lemma regexp_exec_versioned (ns base d : jsstring) :
  base <> [] -> no_line_terminator base = true ->
  d <> [] -> forallb is_digit d = true ->
  regexp_exec ns (versioned_key ns base d) = Some base.
Proof.
  intros Hb Hlt Hd Hdig. unfold regexp_exec, versioned_key.
  rewrite strip_prefix_app. destruct base as [|c base]; [congruence|].
  change ((c :: base) ++ js "__" ++ d) with (c :: base ++ js "__" ++ d).
  rewrite lazy_group_base by assumption. reflexivity.
Qed.

Lemma decimal_value_acc (ds : jsstring) (a : N) :
  fold_left (fun a c => a * 10 + (c - 48)) ds a
  = a * 10 ^ N.of_nat (List.length ds) + decimal_value ds.
Proof.
  unfold decimal_value. revert a.
  induction ds as [|c ds IH]; intros a.
  - simpl. lia.
  - cbn [fold_left List.length]. rewrite IH, (IH (0 * 10 + (c - 48))).
    rewrite Nat2N.inj_succ, N.pow_succ_r'. lia.
Qed.

Lemma decimal_value_cons (c : code_unit) (ds : jsstring) :
  decimal_value (c :: ds)
  = (c - 48) * 10 ^ N.of_nat (List.length ds) + decimal_value ds.
Proof.
  unfold decimal_value at 1. cbn [fold_left]. rewrite decimal_value_acc. lia.
Qed.

Lemma decimal_value_bound (ds : jsstring) :
  forallb is_digit ds = true ->
  decimal_value ds < 10 ^ N.of_nat (List.length ds).
Proof.
  induction ds as [|c ds IH]; intros H.
  - cbn. lia.
  - simpl in H. apply andb_true_iff in H. destruct H as [Hc Hds].
    rewrite decimal_value_cons. specialize (IH Hds).
    unfold is_digit in Hc. apply andb_true_iff in Hc.
    rewrite !N.leb_le in Hc.
    cbn [List.length]. rewrite Nat2N.inj_succ, N.pow_succ_r'. nia.
Qed.

(** For digit runs of one width the order of the sort is the numeric
    order. *)
Lemma digits_leb (d1 d2 : jsstring) :
  forallb is_digit d1 = true -> forallb is_digit d2 = true ->
  List.length d1 = List.length d2 ->
  decimal_value d1 < decimal_value d2 ->
  jsstring_leb d1 d2 = true.
Proof.
  revert d2. induction d1 as [|c1 d1 IH]; intros [|c2 d2] H1 H2 Hlen Hlt;
    simpl in Hlen; try discriminate; try reflexivity.
  simpl in H1, H2. apply andb_true_iff in H1, H2.
  destruct H1 as [Hc1 Hd1], H2 as [Hc2 Hd2].
  injection Hlen as Hlen.
  rewrite !decimal_value_cons in Hlt. rewrite Hlen in Hlt.
  pose proof (decimal_value_bound d1 Hd1) as B1.
  pose proof (decimal_value_bound d2 Hd2) as B2.
  rewrite Hlen in B1.
  unfold is_digit in Hc1, Hc2. apply andb_true_iff in Hc1, Hc2.
  rewrite !N.leb_le in Hc1, Hc2.
  simpl. destruct (N.ltb_spec c1 c2); [reflexivity|].
  destruct (N.ltb_spec c2 c1).
  - exfalso. nia.
  - assert (c1 = c2) by lia. subst c2.
    apply IH; try assumption. lia.
Qed.

(** C2 (amended): of two raw keys of one source map that differ only in
    their version suffix, and that are the only keys with their base name,
    the one that comes later in the order of the sort (code units, left to
    right) is the one stored under the base name; when the two suffixes
    have the same number of digits, that is the key with the greater
    number. *)
Theorem later_sorted_suffix_wins
  (e : list (jsstring * option jsstring)) (ns base d1 d2 : jsstring) :
  ns_literal ns = true ->
  base <> [] -> no_line_terminator base = true -> base <> proto_name ->
  d1 <> [] -> d2 <> [] ->
  forallb is_digit d1 = true -> forallb is_digit d2 = true ->
  In (versioned_key ns base d1) (List.map fst e) ->
  In (versioned_key ns base d2) (List.map fst e) ->
  (forall k, In k (List.map fst e) -> regexp_exec ns k = Some base ->
             k = versioned_key ns base d1 \/ k = versioned_key ns base d2) ->
  regexp_exec ns (versioned_key ns base d1) = Some base
  /\ regexp_exec ns (versioned_key ns base d2) = Some base
  /\ read (flat e ns) base
     = read e (if jsstring_leb (versioned_key ns base d1)
                               (versioned_key ns base d2)
               then versioned_key ns base d2
               else versioned_key ns base d1)
  /\ (List.length d1 = List.length d2 ->
      decimal_value d1 < decimal_value d2 ->
      read (flat e ns) base = read e (versioned_key ns base d2)).
Proof.
  intros _ Hb Hlt Hproto Hd1 Hd2 Hdig1 Hdig2 Hin1 Hin2 Honly.
  assert (E1 := regexp_exec_versioned ns Hb Hlt Hd1 Hdig1).
  assert (E2 := regexp_exec_versioned ns Hb Hlt Hd2 Hdig2).
  assert (Hlater :
    read (flat e ns) base
    = read e (if jsstring_leb (versioned_key ns base d1)
                              (versioned_key ns base d2)
              then versioned_key ns base d2
              else versioned_key ns base d1)).
  { destruct (jsstring_leb (versioned_key ns base d1)
                (versioned_key ns base d2)) eqn:Hle.
    - apply flat_last_wins; try assumption.
      intros k' Hin Hbase. destruct (Honly k' Hin Hbase) as [-> | ->];
        [exact Hle | apply jsstring_leb_refl].
    - apply flat_last_wins; try assumption.
      intros k' Hin Hbase. destruct (Honly k' Hin Hbase) as [-> | ->];
        [apply jsstring_leb_refl | apply jsstring_leb_total; exact Hle]. }
  repeat split; try assumption.
  intros Hlen Hval. rewrite Hlater.
  unfold versioned_key. rewrite !jsstring_leb_app.
  rewrite digits_leb by assumption. reflexivity.
Qed.

Lemma later_sorted_suffix_wins_witness :
  In (versioned_key (js "APP_") (js "x") (js "1"))
    (List.map fst versions_env)
  /\ In (versioned_key (js "APP_") (js "x") (js "2"))
       (List.map fst versions_env)
  /\ decimal_value (js "1") < decimal_value (js "2")
  /\ read (flat versions_env (js "APP_")) (js "x")
     = read versions_env (js "APP_x__2").
Proof.
  split; [simpl; auto|]. split; [simpl; auto|]. split; [reflexivity|].
  refine (proj2 (proj2 (proj2 (@later_sorted_suffix_wins versions_env
            (js "APP_") (js "x") (js "1") (js "2")
            eq_refl _ eq_refl _ _ _ eq_refl eq_refl _ _ _))) eq_refl eq_refl);
    try discriminate.
  - simpl; auto.
  - simpl; auto.
  - intros k Hin Hbase. simpl in Hin.
    destruct Hin as [<- | [<- | [<- | []]]]; try discriminate; auto.
Defined.

(** C2 (as stated) fails for mixed digit widths: with [APP_x__2=two] and
    [APP_x__10=ten] the key [APP_x__10] sorts first, so the value stored
    under [x] is the one of suffix 2, although 10 is the greater number. *)
Lemma mixed_width_counterexample :
  decimal_value (js "2") < decimal_value (js "10")
  /\ read mixed_width_env (js "APP_x__10") = Some (js "ten")
  /\ read (flat mixed_width_env (js "APP_")) (js "x") = Some (js "two").
Proof. repeat split; reflexivity. Qed.

(* ===================================================================== *)
(** * Merging *)
(* ===================================================================== *)

Lemma distinct_cons (k : jsstring) (r : list jsstring) :
  distinct (k :: r) = true <-> ~ In k r /\ distinct r = true.
Proof.
  simpl. rewrite andb_true_iff, negb_true_iff. split.
  - intros [Hex Hd]. split; [|exact Hd]. intros Hin.
    assert (existsb (jsstring_eqb k) r = true).
    { apply existsb_exists. exists k. split; [exact Hin|].
      apply jsstring_eqb_refl. }
    congruence.
  - intros [Hnin Hd]. split; [|exact Hd].
    destruct (existsb (jsstring_eqb k) r) eqn:E; [|reflexivity].
    apply existsb_exists in E. destruct E as [k' [Hin Heq]].
    apply jsstring_eqb_eq in Heq. subst. contradiction.
Qed.

Section MergeProps.
Variable f : value -> value -> value.


End MergeProps.

Lemma well_formed_child (cls : objclass) (props : list (jsstring * value))
  (k : jsstring) (c : value) :
  well_formed (VObject cls props) = true ->
  obj_get props k = Some c ->
  well_formed c = true.
Proof.
  simpl. rewrite andb_true_iff. intros [_ Hall] Hget.
  rewrite forallb_forall in Hall. apply obj_get_In in Hget.
  exact (Hall _ Hget).
Qed.




(* ===================================================================== *)
(** * The tree builder keeps objects well formed *)
(* ===================================================================== *)

Lemma distinct_obj_set (o : list (jsstring * value)) (k : jsstring)
  (v : value) :
  distinct (List.map fst o) = true ->
  distinct (List.map fst (obj_set o k v)) = true.
Proof.
  induction o as [|[k0 v0] o IH]; intros Hd; [reflexivity|].
  cbn [List.map fst] in Hd. apply distinct_cons in Hd.
  destruct Hd as [Hnin Hd]. cbn [obj_set].
  destruct (jsstring_eqb k0 k) eqn:E; cbn [List.map fst];
    apply distinct_cons.
  - auto.
  - split; [|auto]. rewrite obj_set_keys. intros [-> | Hin]; [|tauto].
    rewrite jsstring_eqb_refl in E. discriminate.
Qed.

Lemma forallb_obj_set (P : value -> bool) (o : list (jsstring * value))
  (k : jsstring) (v : value) :
  forallb (fun kv => P (snd kv)) o = true -> P v = true ->
  forallb (fun kv => P (snd kv)) (obj_set o k v) = true.
Proof.
  intros Ho Hv. induction o as [|[k0 v0] o IH]; simpl.
  - rewrite Hv; reflexivity.
  - simpl in Ho. apply andb_true_iff in Ho. destruct Ho as [H0 Ho].
    destruct (jsstring_eqb k0 k); simpl.
    + rewrite Hv, Ho; reflexivity.
    + rewrite H0, IH by exact Ho; reflexivity.
Qed.

Lemma well_formed_obj_set (cls : objclass) (o : list (jsstring * value))
  (k : jsstring) (v : value) :
  well_formed (VObject cls o) = true -> well_formed v = true ->
  well_formed (VObject cls (obj_set o k v)) = true.
Proof.
  simpl. rewrite !andb_true_iff. intros [Hd Hall] Hv. split.
  - apply distinct_obj_set; exact Hd.
  - apply (forallb_obj_set well_formed); assumption.
Qed.

Lemma set_prop_well_formed (current v r : value) (key : jsstring) :
  well_formed current = true -> well_formed v = true ->
  set_prop current key v = Ok r -> well_formed r = true.
Proof.
  intros Hc Hv. destruct current as [| | b | n | s | cls props]; simpl;
    try discriminate;
    try (destruct (jsstring_eqb key proto_name); [|discriminate];
         intros H; injection H as <-; reflexivity).
  destruct (jsstring_eqb key proto_name).
  - destruct v; try discriminate; intros H; injection H as <-; exact Hc.
  - destruct cls; [|destruct (jsstring_eqb key length_name);
                     [discriminate|]];
      intros H; injection H as <-; apply well_formed_obj_set; assumption.
Qed.

Lemma get_prop_well_formed (current c : value) (key : jsstring) :
  well_formed current = true ->
  get_prop current key = Ok c -> well_formed c = true.
Proof.
  intros Hc. destruct current as [| | b | n | s | cls props]; simpl;
    try discriminate;
    try (destruct (jsstring_eqb key proto_name); [discriminate|];
         intros H; injection H as <-; reflexivity).
  - destruct (jsstring_eqb key proto_name); [discriminate|].
    destruct (jsstring_eqb key length_name);
      [intros H; injection H as <-; reflexivity|].
    destruct (array_index key); [|intros H; injection H as <-; reflexivity].
    destruct (nth_error s (N.to_nat n)); intros H; injection H as <-;
      reflexivity.
  - destruct (jsstring_eqb key proto_name); [discriminate|].
    assert (Hget : well_formed
                     (match obj_get props key with
                      | Some v => v
                      | None => VUndefined
                      end) = true).
    { destruct (obj_get props key) eqn:E; [|reflexivity].
      exact (well_formed_child cls props key Hc E). }
    destruct cls; [|destruct (jsstring_eqb key length_name);
                     [discriminate|]];
      intros H; injection H as <-; exact Hget.
Qed.

Lemma store_child_well_formed (parent child : value) (key : jsstring) :
  well_formed parent = true -> well_formed child = true ->
  well_formed (store_child parent key child) = true.
Proof.
  intros Hp Hc. destruct parent; cbn [store_child]; try exact Hp.
  apply well_formed_obj_set; assumption.
Qed.

Lemma walk_well_formed (path : list jsstring) (current v r : value) :
  well_formed current = true -> well_formed v = true ->
  walk current path v = Ok r -> well_formed r = true.
Proof.
  revert current r. induction path as [|seg rest IH]; intros current r Hc Hv.
  - simpl. intros H; injection H as <-; exact Hc.
  - cbn [walk]. destruct rest as [|next rest'].
    + apply set_prop_well_formed; assumption.
    + destruct (has_own_property current _) as [has| |]; try discriminate.
      cbn [bind]. rewrite typeof_element_not_number.
      destruct (if has then Ok current else set_prop current _ empty_object)
        as [current1| |] eqn:E1; try discriminate.
      assert (H1 : well_formed current1 = true).
      { destruct has; [injection E1 as <-; exact Hc|].
        exact (@set_prop_well_formed current empty_object current1 _
                 Hc eq_refl E1). }
      cbn [bind].
      destruct (get_prop current1 _) as [child| |] eqn:E2; try discriminate.
      cbn [bind].
      destruct (walk child (next :: rest') v) as [child'| |] eqn:E3;
        try discriminate.
      cbn [bind]. intros H; injection H as <-.
      apply store_child_well_formed; [exact H1|].
      eapply IH; [|exact Hv|exact E3].
      eapply get_prop_well_formed; eassumption.
Qed.

Lemma nativize_well_formed (v : jsstring) : well_formed (nativize v) = true.
Proof.
  unfold nativize.
  repeat match goal with |- context [if ?b then _ else _] => destruct b end;
    reflexivity.
Qed.

Lemma interpret_value_well_formed (raw : jsstring) :
  well_formed (interpret_value raw) = true.
Proof.
  unfold interpret_value. destruct (match_cast raw) as [[ty x]|].
  - repeat match goal with |- context [if ?b then _ else _] => destruct b end;
      reflexivity.
  - apply nativize_well_formed.
Qed.

Lemma fold_result_invariant (A B : Type) (P : B -> Prop)
  (f : B -> A -> result B) (l : list A) :
  (forall acc x acc', P acc -> f acc x = Ok acc' -> P acc') ->
  forall acc r, P acc -> fold_result f l acc = Ok r -> P r.
Proof.
  intros Hf. induction l as [|x l IH]; intros acc r Hacc; simpl.
  - intros H; injection H as <-; exact Hacc.
  - destruct (f acc x) as [acc'| |] eqn:E; try discriminate.
    simpl. apply IH. eapply Hf; eassumption.
Qed.

Lemma interpret_well_formed (fl : list (jsstring * option jsstring))
  (delimiter : jsstring) (r : value) :
  interpret fl delimiter = Ok r -> well_formed r = true.
Proof.
  unfold interpret.
  apply (fold_result_invariant (fun t => well_formed t = true));
    [|reflexivity].
  intros acc k acc' Hacc. destruct (read fl k) as [raw|]; [|discriminate].
  apply walk_well_formed; [exact Hacc | apply interpret_value_well_formed].
Qed.


(* ===================================================================== *)
(** * The tree builder never makes an array *)
(* ===================================================================== *)

Lemma array_free_obj_set (o : list (jsstring * value)) (k : jsstring)
  (v : value) :
  array_free (VObject Plain o) = true -> array_free v = true ->
  array_free (VObject Plain (obj_set o k v)) = true.
Proof. cbn [array_free]. apply (forallb_obj_set array_free). Qed.

Lemma set_prop_array_free (current v r : value) (key : jsstring) :
  array_free current = true -> array_free v = true ->
  set_prop current key v = Ok r -> array_free r = true.
Proof.
  intros Hc Hv. destruct current as [| | b | n | s | [] props]; simpl;
    try discriminate;
    try (destruct (jsstring_eqb key proto_name); [|discriminate];
         intros H; injection H as <-; reflexivity).
  destruct (jsstring_eqb key proto_name).
  - destruct v; try discriminate; intros H; injection H as <-; exact Hc.
  - intros H; injection H as <-. apply array_free_obj_set; assumption.
Qed.

Lemma get_prop_array_free (current c : value) (key : jsstring) :
  array_free current = true ->
  get_prop current key = Ok c -> array_free c = true.
Proof.
  intros Hc. destruct current as [| | b | n | s | [] props]; simpl;
    try discriminate;
    try (destruct (jsstring_eqb key proto_name); [discriminate|];
         intros H; injection H as <-; reflexivity).
  - destruct (jsstring_eqb key proto_name); [discriminate|].
    destruct (jsstring_eqb key length_name);
      [intros H; injection H as <-; reflexivity|].
    destruct (array_index key); [|intros H; injection H as <-; reflexivity].
    destruct (nth_error s (N.to_nat n)); intros H; injection H as <-;
      reflexivity.
  - destruct (jsstring_eqb key proto_name); [discriminate|].
    intros H; injection H as <-.
    destruct (obj_get props key) eqn:E; [|reflexivity].
    cbn [array_free] in Hc. rewrite forallb_forall in Hc.
    apply obj_get_In in E. exact (Hc _ E).
Qed.

Lemma walk_array_free (path : list jsstring) (current v r : value) :
  array_free current = true -> array_free v = true ->
  walk current path v = Ok r -> array_free r = true.
Proof.
  revert current r. induction path as [|seg rest IH]; intros current r Hc Hv.
  - simpl. intros H; injection H as <-; exact Hc.
  - cbn [walk]. destruct rest as [|next rest'].
    + apply set_prop_array_free; assumption.
    + destruct (has_own_property current _) as [has| |]; try discriminate.
      cbn [bind]. rewrite typeof_element_not_number.
      destruct (if has then Ok current else set_prop current _ empty_object)
        as [current1| |] eqn:E1; try discriminate.
      assert (H1 : array_free current1 = true).
      { destruct has; [injection E1 as <-; exact Hc|].
        exact (@set_prop_array_free current empty_object current1 _
                 Hc eq_refl E1). }
      cbn [bind].
      destruct (get_prop current1 _) as [child| |] eqn:E2; try discriminate.
      cbn [bind].
      destruct (walk child (next :: rest') v) as [child'| |] eqn:E3;
        try discriminate.
      cbn [bind]. intros H; injection H as <-.
      assert (Hchild : array_free child' = true).
      { eapply IH; [|exact Hv|exact E3].
        eapply get_prop_array_free; eassumption. }
      destruct current1 as [| | | | |[] props]; cbn [store_child];
        try exact H1; try discriminate.
      apply array_free_obj_set; assumption.
Qed.

Lemma interpret_value_array_free (raw : jsstring) :
  array_free (interpret_value raw) = true.
Proof.
  unfold interpret_value, nativize. destruct (match_cast raw) as [[ty x]|];
    repeat match goal with |- context [if ?b then _ else _] => destruct b end;
    reflexivity.
Qed.

(** Whatever the flat map and the delimiter, the tree that [interpret]
    returns holds no array. *)
Lemma interpret_array_free (fl : list (jsstring * option jsstring))
  (delimiter : jsstring) (r : value) :
  interpret fl delimiter = Ok r -> array_free r = true.
Proof.
  unfold interpret.
  apply (fold_result_invariant (fun t => array_free t = true));
    [|reflexivity].
  intros acc k acc' Hacc. destruct (read fl k) as [raw|]; [|discriminate].
  apply walk_array_free; [exact Hacc | apply interpret_value_array_free].
Qed.

(* ===================================================================== *)
(** * Decimal numerals *)
(* ===================================================================== *)

Lemma digit_cases (c : code_unit) :
  is_digit c = true ->
  c = 48 \/ c = 49 \/ c = 50 \/ c = 51 \/ c = 52 \/ c = 53 \/ c = 54
  \/ c = 55 \/ c = 56 \/ c = 57.
Proof.
  unfold is_digit. rewrite andb_true_iff, !N.leb_le. lia.
Qed.

Lemma is_digit_of_small (d : N) : d < 10 -> is_digit (48 + d) = true.
Proof.
  intros H. unfold is_digit. rewrite andb_true_iff, !N.leb_le. lia.
Qed.

Lemma decimal_value_snoc (ds : jsstring) (c : code_unit) :
  decimal_value (ds ++ [c]) = decimal_value ds * 10 + (c - 48).
Proof. unfold decimal_value. rewrite fold_left_app. reflexivity. Qed.

Lemma forallb_snoc (A : Type) (f : A -> bool) (l : list A) (x : A) :
  forallb f (l ++ [x]) = forallb f l && f x.
Proof. rewrite forallb_app. simpl. rewrite andb_true_r. reflexivity. Qed.

(** What [decimal_aux] prepends: the digits of [n], without a leading zero
    unless [n] is zero. *)
Lemma decimal_aux_spec (fuel : nat) :
  forall (n : N) (acc : jsstring),
    n < 10 ^ N.of_nat fuel -> (0 < fuel)%nat ->
    exists ds,
      decimal_aux fuel n acc = ds ++ acc
      /\ forallb is_digit ds = true
      /\ decimal_value ds = n
      /\ (exists c r, ds = c :: r /\ (c = 48 -> n = 0 /\ r = [])).
Proof.
  induction fuel as [|f IH]; intros n acc Hn Hf; [lia|].
  cbn [decimal_aux].
  assert (Hmod : n mod 10 < 10) by (apply N.mod_lt; lia).
  assert (Hdm : n = 10 * (n / 10) + n mod 10) by (apply N.div_mod'; lia).
  destruct (N.eqb_spec (n / 10) 0) as [Hz | Hnz].
  - exists [48 + n mod 10]. repeat split.
    + cbn [forallb]. rewrite is_digit_of_small by exact Hmod. reflexivity.
    + unfold decimal_value. cbn [fold_left]. lia.
    + exists (48 + n mod 10), []. split; [reflexivity|].
      intros H. split; [lia | reflexivity].
  - assert (Hf' : (0 < f)%nat).
    { destruct f; [|lia]. exfalso. apply Hnz. apply N.div_small.
      exact Hn. }
    assert (Hn' : n / 10 < 10 ^ N.of_nat f).
    { apply N.Div0.div_lt_upper_bound.
      rewrite Nat2N.inj_succ, N.pow_succ_r' in Hn. exact Hn. }
    destruct (IH (n / 10) ((48 + n mod 10) :: acc) Hn' Hf')
      as [ds [Heq [Hdig [Hval [c [r [Hds Hc]]]]]]].
    exists (ds ++ [48 + n mod 10]). repeat split.
    + rewrite Heq, <- app_assoc. reflexivity.
    + rewrite forallb_snoc. apply andb_true_iff.
      split; [exact Hdig | apply is_digit_of_small; exact Hmod].
    + rewrite decimal_value_snoc, Hval.
      clear - Hdm. set (q := n / 10) in *. set (m := n mod 10) in *.
      clearbody q m. lia.
    + exists c, (r ++ [48 + n mod 10]). split; [rewrite Hds; reflexivity|].
      intros Hc48. destruct (Hc Hc48) as [H0 _]. congruence.
Qed.

Lemma decimal_spec (n : N) :
  forallb is_digit (decimal n) = true
  /\ decimal_value (decimal n) = n
  /\ (exists c r, decimal n = c :: r /\ (c = 48 -> n = 0 /\ r = [])).
Proof.
  unfold decimal.
  destruct (@decimal_aux_spec (S (N.to_nat (N.log2 n))) n []) as
    [ds [Heq H]].
  - rewrite Nat2N.inj_succ, N2Nat.id.
    destruct (N.eq_dec n 0) as [->|Hn]; [reflexivity|].
    apply N.lt_le_trans with (2 ^ N.succ (N.log2 n)).
    + apply N.log2_spec. lia.
    + apply N.pow_le_mono_l. lia.
  - lia.
  - rewrite Heq, app_nil_r. exact H.
Qed.

Lemma decimal_digits (n : N) : forallb is_digit (decimal n) = true.
Proof. apply decimal_spec. Qed.

Lemma decimal_value_decimal (n : N) : decimal_value (decimal n) = n.
Proof. apply decimal_spec. Qed.

(** The first digit of a positive number is not zero. *)
Lemma decimal_positive (p : positive) :
  exists c r, decimal (Npos p) = c :: r /\ is_digit c = true /\ c <> 48.
Proof.
  destruct (decimal_spec (Npos p)) as [Hdig [_ [c [r [Heq Hc]]]]].
  exists c, r. split; [exact Heq|]. split.
  - rewrite Heq in Hdig. simpl in Hdig. apply andb_true_iff in Hdig.
    apply Hdig.
  - intros H. destruct (Hc H). discriminate.
Qed.

Lemma int_to_string_of_N (c : N) : int_to_string (Z.of_N c) = decimal c.
Proof. destruct c; reflexivity. Qed.

(** [int_to_string] is one to one. *)
Lemma int_to_string_inj (z1 z2 : Z) :
  int_to_string z1 = int_to_string z2 -> z1 = z2.
Proof.
  assert (Hpos : forall p, exists c r,
             int_to_string (Zpos p) = c :: r /\ is_digit c = true /\ c <> 48).
  { intros p. apply decimal_positive. }
  assert (Hval : forall p q, decimal (Npos p) = decimal (Npos q) -> p = q).
  { intros p q H. apply (f_equal decimal_value) in H.
    rewrite !decimal_value_decimal in H. congruence. }
  destruct z1 as [|p|p], z2 as [|q|q]; intros H; try reflexivity.
  - destruct (Hpos q) as [c [r [E [_ Hc]]]]. rewrite E in H.
    injection H as H _. congruence.
  - discriminate.
  - destruct (Hpos p) as [c [r [E [_ Hc]]]]. rewrite E in H.
    injection H as H _. congruence.
  - f_equal. apply Hval. exact H.
  - destruct (Hpos p) as [c [r [E [Hd _]]]]. rewrite E in H.
    cbn in H. injection H as H _. subst c. discriminate.
  - discriminate.
  - destruct (Hpos q) as [c [r [E [Hd _]]]]. rewrite E in H.
    cbn in H. injection H as H _. subst c. discriminate.
  - cbn in H. injection H as H. f_equal. apply Hval. exact H.
Qed.

(* ===================================================================== *)
(** * Doubles below 2^53 are exact *)
(* ===================================================================== *)

Lemma size_small (n : N) : n < 2 ^ 53 -> N.size n <= 53.
Proof.
  intros H. destruct (N.eq_dec n 0) as [->|Hn]; [cbn; lia|].
  rewrite N.size_log2 by exact Hn.
  apply N.le_succ_l. apply N.log2_lt_pow2; [lia | exact H].
Qed.

Lemma round53_small (n : N) : n < 2 ^ 53 -> round53 n = n.
Proof.
  intros H. unfold round53. apply size_small in H.
  destruct (N.leb_spec (N.size n) 53); [reflexivity | lia].
Qed.

Lemma round53_big (n : N) : 2 ^ 53 <= n -> 2 ^ 53 <= round53 n.
Proof.
  intros H. unfold round53.
  destruct (N.leb_spec (N.size n) 53) as [Hs | Hs]; [exact H|].
  assert (Hn : n <> 0) by (intros ->; cbn in H; lia).
  rewrite N.size_log2 in * by exact Hn.
  set (e := N.succ (N.log2 n) - 53) in *.
  assert (He : 1 <= e) by (unfold e; lia).
  assert (Hlog : N.log2 n = 52 + e) by (unfold e; lia).
  cbv zeta. rewrite N.shiftl_mul_pow2, N.shiftr_div_pow2.
  assert (Hpe : 2 * 1 <= 2 ^ e).
  { replace e with (N.succ (e - 1)) by lia. rewrite N.pow_succ_r'.
    apply N.mul_le_mono_l. apply N.neq_0_le_1.
    apply N.pow_nonzero. lia. }
  assert (Hq : 2 ^ 52 <= n / 2 ^ e).
  { apply N.div_le_lower_bound; [apply N.pow_nonzero; lia|].
    rewrite <- N.pow_add_r. replace (e + 52) with (N.log2 n) by lia.
    apply N.log2_spec. lia. }
  set (q := n / 2 ^ e) in *. set (pe := 2 ^ e) in *.
  change (2 ^ 53) with (2 ^ 52 * 2).
  destruct ((N.shiftl 1 (e - 1) <? N.land n (N.ones e))
            || (N.land n (N.ones e) =? N.shiftl 1 (e - 1)) && N.odd q).
  - apply N.mul_le_mono; lia.
  - apply N.mul_le_mono; lia.
Qed.

Lemma to_double_small (neg : bool) (m : N) :
  m < 2 ^ 53 ->
  to_double neg m = Int (if neg then (- Z.of_N m)%Z else Z.of_N m).
Proof.
  intros H. unfold to_double. rewrite round53_small by exact H.
  destruct (N.leb_spec (2 ^ 1024) m) as [Hbig|]; [|reflexivity].
  exfalso. assert (2 ^ 53 <= 2 ^ 1024) by (apply N.pow_le_mono_r; lia).
  lia.
Qed.

Lemma shortest_from_small (x : N) :
  x < 2 ^ 53 -> forall fuel j, shortest_from fuel j x = x.
Proof.
  intros Hx. induction fuel as [|f IH]; intros j; [reflexivity|].
  cbn [shortest_from]. cbv zeta.
  set (p := 10 ^ j).
  assert (Hp : p <> 0) by (apply N.pow_nonzero; lia).
  assert (Hlo : x / p * p <= x).
  { rewrite N.mul_comm. apply N.Div0.mul_div_le. }
  assert (Hhi : x < x / p * p + p).
  { pose proof (N.div_mod' x p) as Hdm.
    pose proof (N.mod_lt x p Hp) as Hm.
    rewrite N.mul_comm.
    set (q := x / p) in *. set (m := x mod p) in *. clearbody q m. lia. }
  rewrite (round53_small (n := x / p * p)) by lia.
  assert (Hokhi : (round53 (x / p * p + p) =? x) = false).
  { apply N.eqb_neq.
    destruct (N.lt_ge_cases (x / p * p + p) (2 ^ 53)) as [Hs | Hb].
    - rewrite round53_small by exact Hs. lia.
    - apply round53_big in Hb. lia. }
  rewrite Hokhi, andb_false_r.
  destruct (N.eqb_spec (x / p * p) x) as [E|_]; [exact E | apply IH].
Qed.

Lemma positive_to_string_small (x : N) :
  x < 2 ^ 53 -> positive_to_string x = decimal x.
Proof.
  intros Hx. unfold positive_to_string, shortest.
  rewrite shortest_from_small by exact Hx.
  destruct (N.ltb_spec x (10 ^ 21)) as [|Hbig]; [reflexivity|].
  exfalso. assert (2 ^ 53 < 10 ^ 21) by reflexivity. lia.
Qed.

Lemma integral_to_string_small (z : Z) :
  (Z.abs z < 2 ^ 53)%Z -> integral_to_string (Int z) = int_to_string z.
Proof.
  intros H. destruct z as [|p|p]; [reflexivity| |]; cbn [integral_to_string];
    rewrite positive_to_string_small by lia; reflexivity.
Qed.

(* ===================================================================== *)
(** * [parseInt] and [Number] on decimal numerals *)
(* ===================================================================== *)

Lemma span_digits_all (ds : jsstring) :
  forallb is_digit ds = true ->
  span_digits 10 ds = (List.map (fun c => c - 48) ds, []).
Proof.
  induction ds as [|c ds IH]; intros H; [reflexivity|].
  simpl in H. apply andb_true_iff in H. destruct H as [Hc Hds].
  cbn [span_digits List.map]. rewrite (IH Hds).
  each_digit digit_cases Hc; reflexivity.
Qed.

Lemma digits_value_map (ds : jsstring) :
  digits_value 10 (List.map (fun c => c - 48) ds) = decimal_value ds.
Proof.
  unfold digits_value, decimal_value. generalize 0.
  induction ds as [|c ds IH]; intros a; [reflexivity|].
  cbn [List.map fold_left]. apply IH.
Qed.

(** [parseInt] on a run of digits that does not start with a zero. *)
Lemma parseInt_digits (c : code_unit) (r : jsstring) :
  is_digit c = true -> c <> 48 -> forallb is_digit r = true ->
  decimal_value (c :: r) <> 0 ->
  parseInt (c :: r) = to_double false (decimal_value (c :: r)).
Proof.
  intros Hc Hc0 Hr Hm.
  assert (Hall : forallb is_digit (c :: r) = true)
    by (simpl; rewrite Hc, Hr; reflexivity).
  pose proof (span_digits_all _ Hall) as Hspan.
  pose proof (digits_value_map (c :: r)) as Hval.
  apply N.eqb_neq in Hm.
  each_digit digit_cases Hc; try congruence; unfold parseInt;
    cbn [drop_while is_whitespace strip_sign];
    cbn -[span_digits digits_value to_double decimal_value];
    rewrite Hspan; cbn [fst List.map];
    cbn [List.map] in Hval; rewrite Hval, Hm; reflexivity.
Qed.

Lemma parseInt_negative_digits (c : code_unit) (r : jsstring) :
  is_digit c = true -> c <> 48 -> forallb is_digit r = true ->
  decimal_value (c :: r) <> 0 ->
  parseInt (45 :: c :: r) = to_double true (decimal_value (c :: r)).
Proof.
  intros Hc Hc0 Hr Hm.
  assert (Hall : forallb is_digit (c :: r) = true)
    by (simpl; rewrite Hc, Hr; reflexivity).
  pose proof (span_digits_all _ Hall) as Hspan.
  pose proof (digits_value_map (c :: r)) as Hval.
  apply N.eqb_neq in Hm.
  each_digit digit_cases Hc; try congruence; unfold parseInt;
    cbn [drop_while is_whitespace strip_sign];
    cbn -[span_digits digits_value to_double decimal_value];
    rewrite Hspan; cbn [fst List.map];
    cbn [List.map] in Hval; rewrite Hval, Hm; reflexivity.
Qed.

(** [parseInt] reads back the string form of an integer below 2^53. *)
Lemma parseInt_int_to_string (z : Z) :
  (Z.abs z < 2 ^ 53)%Z -> parseInt (int_to_string z) = Int z.
Proof.
  intros Hz. destruct z as [|p|p]; [reflexivity| |].
  - destruct (decimal_positive p) as [c [r [E [Hc Hc0]]]].
    pose proof (decimal_digits (Npos p)) as Hd.
    pose proof (decimal_value_decimal (Npos p)) as Hv.
    cbn [int_to_string]. rewrite E in *.
    simpl in Hd. apply andb_true_iff in Hd.
    rewrite parseInt_digits; try tauto; try (rewrite Hv; discriminate).
    rewrite Hv, to_double_small by lia. reflexivity.
  - destruct (decimal_positive p) as [c [r [E [Hc Hc0]]]].
    pose proof (decimal_digits (Npos p)) as Hd.
    pose proof (decimal_value_decimal (Npos p)) as Hv.
    cbn [int_to_string]. rewrite E in *.
    simpl in Hd. apply andb_true_iff in Hd.
    change (js "-" ++ c :: r) with (45 :: c :: r).
    rewrite parseInt_negative_digits; try tauto;
      try (rewrite Hv; discriminate).
    rewrite Hv, to_double_small by lia. reflexivity.
Qed.

Lemma is_digit_not_whitespace (c : code_unit) :
  is_digit c = true -> is_whitespace c = false.
Proof. intros H. each_digit digit_cases H; reflexivity. Qed.

Lemma drop_while_head (f : code_unit -> bool) (c : code_unit) (s : jsstring) :
  f c = false -> drop_while f (c :: s) = c :: s.
Proof. intros H. simpl. rewrite H. reflexivity. Qed.

(** Nothing is trimmed from a string that starts and ends with a code
    unit other than white space. *)
Lemma trim_id (c : code_unit) (s : jsstring) (l : code_unit) :
  is_whitespace c = false -> is_whitespace l = false ->
  rev (c :: s) = l :: rev (removelast (c :: s)) ->
  trim (c :: s) = c :: s.
Proof.
  intros Hc Hl Hrev. unfold trim. rewrite drop_while_head by exact Hc.
  rewrite Hrev, drop_while_head by exact Hl. rewrite <- Hrev.
  apply rev_involutive.
Qed.

Lemma rev_last_digit (c : code_unit) (s : jsstring) :
  forallb is_digit s = true -> s <> [] ->
  exists l, is_digit l = true
            /\ rev (c :: s) = l :: rev (removelast (c :: s)).
Proof.
  intros Hs Hne.
  destruct (exists_last Hne) as [s' [l E]]. subst s.
  exists l. split.
  - rewrite forallb_app in Hs. apply andb_true_iff in Hs.
    destruct Hs as [_ Hl]. simpl in Hl. rewrite andb_true_r in Hl. exact Hl.
  - change (c :: s' ++ [l]) with ((c :: s') ++ [l]).
    rewrite removelast_last, rev_app_distr. reflexivity.
Qed.

Lemma trim_digits (ds : jsstring) :
  forallb is_digit ds = true -> trim ds = ds.
Proof.
  intros H. destruct ds as [|c s]; [reflexivity|].
  simpl in H. apply andb_true_iff in H. destruct H as [Hc Hs].
  destruct s as [|c' s'].
  - unfold trim. rewrite drop_while_head
      by (apply is_digit_not_whitespace; exact Hc).
    cbn [rev app]. rewrite drop_while_head
      by (apply is_digit_not_whitespace; exact Hc). reflexivity.
  - destruct (@rev_last_digit c (c' :: s') Hs ltac:(discriminate))
      as [l [Hl Hrev]].
    eapply trim_id; [| |exact Hrev]; apply is_digit_not_whitespace;
      assumption.
Qed.

Lemma trim_negative_digits (ds : jsstring) :
  forallb is_digit ds = true -> ds <> [] -> trim (45 :: ds) = 45 :: ds.
Proof.
  intros H Hne.
  destruct (@rev_last_digit 45 ds H Hne) as [l [Hl Hrev]].
  eapply trim_id; [reflexivity | | exact Hrev].
  apply is_digit_not_whitespace; exact Hl.
Qed.

Lemma decimal_literal_digits (ds : jsstring) :
  forallb is_digit ds = true -> ds <> [] ->
  decimal_literal ds = Some (decimal_value ds, 0%Z).
Proof.
  intros H Hne. unfold decimal_literal.
  rewrite span_digits_all by exact H. cbn [fst snd].
  rewrite app_nil_r. destruct ds as [|c r]; [congruence|].
  cbn [List.map]. cbn [exponent_part List.length].
  change (c - 48 :: List.map (fun c0 => c0 - 48) r)
    with (List.map (fun c0 => c0 - 48) (c :: r)).
  rewrite digits_value_map. reflexivity.
Qed.

(** [Number] reads back the string form of an integer below 2^53. *)
Lemma Number_int_to_string (z : Z) :
  (Z.abs z < 2 ^ 53)%Z -> Number (int_to_string z) = Integral (Int z).
Proof.
  intros Hz. destruct z as [|p|p]; [reflexivity| |].
  - destruct (decimal_positive p) as [c [r [E [Hc Hc0]]]].
    pose proof (decimal_digits (Npos p)) as Hd.
    pose proof (decimal_value_decimal (Npos p)) as Hv.
    cbn [int_to_string]. rewrite E in *.
    unfold Number, StringNumericLiteral. rewrite trim_digits by exact Hd.
    assert (Hlit : decimal_literal (c :: r) = Some (Npos p, 0%Z)).
    { rewrite decimal_literal_digits, Hv by (auto; discriminate).
      reflexivity. }
    assert (Hof : of_decimal false (Npos p) 0 = Integral (Int (Zpos p))).
    { unfold of_decimal. cbn [N.eqb Z.to_N]. rewrite N.pow_0_r, N.mul_1_r.
      rewrite to_double_small by lia. reflexivity. }
    each_digit digit_cases Hc; try congruence;
      cbn -[decimal_literal of_decimal]; rewrite Hlit, Hof; reflexivity.
  - destruct (decimal_positive p) as [c [r [E [Hc Hc0]]]].
    pose proof (decimal_digits (Npos p)) as Hd.
    pose proof (decimal_value_decimal (Npos p)) as Hv.
    cbn [int_to_string]. rewrite E in *.
    change (js "-" ++ c :: r) with (45 :: c :: r).
    unfold Number, StringNumericLiteral.
    rewrite trim_negative_digits by (auto; discriminate).
    assert (Hlit : decimal_literal (c :: r) = Some (Npos p, 0%Z)).
    { rewrite decimal_literal_digits, Hv by (auto; discriminate).
      reflexivity. }
    assert (Hof : of_decimal true (Npos p) 0 = Integral (Int (Zneg p))).
    { unfold of_decimal. cbn [N.eqb Z.to_N]. rewrite N.pow_0_r, N.mul_1_r.
      rewrite to_double_small by lia. reflexivity. }
    each_digit digit_cases Hc; try congruence;
      cbn -[decimal_literal of_decimal]; rewrite Hlit, Hof; reflexivity.
Qed.

(* ===================================================================== *)
(** * What looks like an integer *)
(* ===================================================================== *)

Lemma strip_zeros_In (l : jsstring) (x : code_unit) :
  In x (strip_zeros l) -> In x l.
Proof.
  induction l as [|c l IH]; [auto|].
  intros H. destruct (N.eq_dec c 48) as [->|Hc].
  - right. apply IH. exact H.
  - assert (E : strip_zeros (c :: l) = c :: l).
    { destruct c as [|q]; [reflexivity|].
      repeat (destruct q as [q|q|]; try reflexivity); congruence. }
    rewrite E in H. exact H.
Qed.

(** From [1e21] on the rendering is either the plain digits or a digit
    followed by [.] or [e]. *)
Lemma exponential_shape (c : N) :
  exponential c = decimal c
  \/ exists d x tl, exponential c = d :: x :: tl
                    /\ is_digit d = true /\ (x = 101 \/ x = 46).
Proof.
  unfold exponential. cbv zeta.
  destruct (rev (strip_zeros (rev (decimal c)))) as [|d [|d' rest]] eqn:E;
    [left; reflexivity | right | right].
  - exists d, 101, (43 :: decimal (N.of_nat (List.length (decimal c)) - 1)).
    split; [reflexivity|]. split; [|auto].
    assert (Hin : In d (decimal c)).
    { apply in_rev, strip_zeros_In, in_rev. rewrite E. left; reflexivity. }
    pose proof (decimal_digits c) as Hd. rewrite forallb_forall in Hd. auto.
  - exists d, 46,
      ((d' :: rest) ++ js "e+"
       ++ decimal (N.of_nat (List.length (decimal c)) - 1)).
    split; [reflexivity|]. split; [|auto].
    assert (Hin : In d (decimal c)).
    { apply in_rev, strip_zeros_In, in_rev. rewrite E. left; reflexivity. }
    pose proof (decimal_digits c) as Hd. rewrite forallb_forall in Hd. auto.
Qed.

Lemma parseInt_digit_stop (d x : code_unit) (tl : jsstring) :
  is_digit d = true -> x = 101 \/ x = 46 ->
  parseInt (d :: x :: tl) = Int (Z.of_N (d - 48)).
Proof.
  intros Hd [-> | ->]; each_digit digit_cases Hd; reflexivity.
Qed.

Lemma parseInt_negative_digit_stop (d x : code_unit) (tl : jsstring) :
  is_digit d = true -> x = 101 \/ x = 46 ->
  parseInt (45 :: d :: x :: tl)
  = if d =? 48 then NegZero else Int (- Z.of_N (d - 48)).
Proof.
  intros Hd [-> | ->]; each_digit digit_cases Hd; reflexivity.
Qed.

Lemma shortest_small (x : N) : x < 2 ^ 53 -> shortest x = x.
Proof. intros H. unfold shortest. apply shortest_from_small; exact H. Qed.

(** A string that [parseInt] and [String] give back unchanged is [NaN] or
    the string form of an integer. *)
Lemma looks_like_int_numeral (v : jsstring) :
  integral_to_string (parseInt v) = v ->
  v = js "NaN" \/ exists z, v = int_to_string z.
Proof.
  intros H. destruct (parseInt v) as [|neg| |[|p|p]] eqn:Hp.
  - left. symmetry. exact H.
  - exfalso. destruct neg; cbn in H; subst v; discriminate.
  - right. exists 0%Z. symmetry. exact H.
  - right. exists 0%Z. symmetry. exact H.
  - right. cbn [integral_to_string] in H. unfold positive_to_string in H.
    destruct (shortest (Npos p) <? 10 ^ 21) eqn:Hc.
    + exists (Z.of_N (shortest (Npos p))). rewrite int_to_string_of_N.
      symmetry. exact H.
    + destruct (exponential_shape (shortest (Npos p)))
        as [E | [d [x [tl [E [Hd Hx]]]]]].
      * exists (Z.of_N (shortest (Npos p))). rewrite int_to_string_of_N.
        rewrite <- E. symmetry. exact H.
      * exfalso. rewrite E in H. subst v.
        rewrite (@parseInt_digit_stop d x tl Hd Hx) in Hp.
        injection Hp as Hp.
        assert (Hsmall : Npos p < 10).
        { assert (Z.of_N (d - 48) = Z.of_N (Npos p)) by (rewrite Hp; auto).
          unfold is_digit in Hd. apply andb_true_iff in Hd.
          rewrite !N.leb_le in Hd. lia. }
        rewrite shortest_small in Hc
          by (apply N.lt_trans with 10; [exact Hsmall | reflexivity]).
        apply N.ltb_ge in Hc.
        assert (10 < 10 ^ 21) by reflexivity. lia.
  - right. cbn [integral_to_string] in H. unfold positive_to_string in H.
    change (js "-" ++ ?s) with (45 :: s) in H.
    assert (Hexp : forall d x tl,
               is_digit d = true -> x = 101 \/ x = 46 ->
               v = 45 :: d :: x :: tl -> shortest (Npos p) < 10 ^ 21).
    { intros d x tl Hd Hx ->.
      rewrite (@parseInt_negative_digit_stop d x tl Hd Hx) in Hp.
      destruct (d =? 48); [discriminate|]. injection Hp as Hp.
      assert (Hsmall : Npos p < 10).
      { unfold is_digit in Hd. apply andb_true_iff in Hd.
        rewrite !N.leb_le in Hd. lia. }
      rewrite shortest_small
        by (apply N.lt_trans with 10; [exact Hsmall | reflexivity]).
      apply N.lt_trans with 10; [exact Hsmall | reflexivity]. }
    assert (Hdec : v = 45 :: decimal (shortest (Npos p)) ->
                   exists z, v = int_to_string z).
    { intros Hv. destruct (shortest (Npos p)) as [|q] eqn:Hq.
      - exfalso. rewrite Hv in Hp. discriminate.
      - exists (Zneg q). exact Hv. }
    destruct (shortest (Npos p) <? 10 ^ 21) eqn:Hc.
    + apply Hdec. symmetry. exact H.
    + destruct (exponential_shape (shortest (Npos p)))
        as [E | [d [x [tl [E [Hd Hx]]]]]].
      * apply Hdec. rewrite <- E. symmetry. exact H.
      * exfalso. rewrite E in H. symmetry in H.
        pose proof (Hexp d x tl Hd Hx H) as Hlt.
        apply N.ltb_ge in Hc. lia.
Qed.

(** The test of line 232 on the string form of an integer below 2^53. *)
Lemma looks_like_int_small (z : Z) :
  (Z.abs z < 2 ^ 53)%Z ->
  jsstring_eqb (integral_to_string (parseInt (int_to_string z)))
    (int_to_string z) = true.
Proof.
  intros Hz. rewrite parseInt_int_to_string by exact Hz.
  rewrite integral_to_string_small by exact Hz. apply jsstring_eqb_refl.
Qed.

(** No string form of an integer is one of the three keywords. *)
Lemma int_to_string_first (z : Z) :
  exists c r, int_to_string z = c :: r /\ (is_digit c = true \/ c = 45).
Proof.
  destruct z as [|p|p].
  - exists 48, []. split; [reflexivity | left; reflexivity].
  - destruct (decimal_positive p) as [c [r [E [Hc _]]]].
    exists c, r. split; [exact E | left; exact Hc].
  - exists 45, (decimal (Npos p)). split; [reflexivity | right; reflexivity].
Qed.

Lemma NaN_is_no_integer (z : Z) : js "NaN" <> int_to_string z.
Proof.
  destruct (int_to_string_first z) as [c [r [E [Hc | ->]]]]; rewrite E.
  - each_digit digit_cases Hc; discriminate.
  - discriminate.
Qed.

(** C5 (amended): for every raw string other than [NaN] that is not the
    string form of an integer of magnitude 2^53 or more, native inference
    yields the number [z] exactly when the string is the string form of the
    base-10 integer [z]; otherwise [true] and [false] become booleans,
    [null] becomes null, and anything else stays the same string.  So
    [5.5] and [007] stay strings while [42] and [-3] become numbers. *)
Theorem native_inference (v : jsstring) :
  v <> js "NaN" ->
  (forall z, v = int_to_string z -> (Z.abs z < 2 ^ 53)%Z) ->
  ((exists z, v = int_to_string z /\ nativize v = VNum (Int z))
   \/ ((forall z, v <> int_to_string z)
       /\ nativize v
          = if jsstring_eqb v (js "true") then VBool true
            else if jsstring_eqb v (js "false") then VBool false
            else if jsstring_eqb v (js "null") then VNull
            else VStr v))
  /\ nativize (js "5.5") = VStr (js "5.5")
  /\ nativize (js "007") = VStr (js "007")
  /\ nativize (js "42") = VNum (Int 42)
  /\ nativize (js "-3") = VNum (Int (-3)).
Proof.
  intros Hnan Hsafe. split; [|repeat split; reflexivity].
  unfold nativize.
  destruct (jsstring_eqb (integral_to_string (parseInt v)) v) eqn:Htest.
  - left. apply jsstring_eqb_eq in Htest.
    destruct (looks_like_int_numeral Htest) as [E | [z E]]; [congruence|].
    exists z. split; [exact E|]. rewrite E.
    rewrite Number_int_to_string by (apply Hsafe; exact E). reflexivity.
  - right. split; [|reflexivity].
    intros z E. rewrite E in Htest.
    rewrite looks_like_int_small in Htest by (apply Hsafe; exact E).
    discriminate.
Qed.

Lemma native_inference_witness :
  js "42" <> js "NaN"
  /\ exists z, js "42" = int_to_string z /\ nativize (js "42") = VNum (Int z).
Proof.
  split; [discriminate|].
  assert (Hsafe : forall z, js "42" = int_to_string z ->
                            (Z.abs z < 2 ^ 53)%Z).
  { intros z E. change (js "42") with (int_to_string 42) in E.
    apply int_to_string_inj in E. subst z. reflexivity. }
  destruct (proj1 (@native_inference (js "42") ltac:(discriminate) Hsafe))
    as [H | [H _]].
  - exact H.
  - exfalso. exact (H 42%Z eq_refl).
Defined.

(** C5 (as stated) fails on the string [NaN]: it is not the string form of
    an integer, yet native inference turns it into a number, the
    not-a-number value. *)
Lemma NaN_string_counterexample :
  nativize (js "NaN") = VNum NaN
  /\ forall z, js "NaN" <> int_to_string z.
Proof. split; [reflexivity | apply NaN_is_no_integer]. Qed.

(** An integer that a double cannot hold exactly is left a string:
    [parseInt] rounds 2^53 + 1 to 2^53, whose string form differs. *)
Lemma beyond_double_precision :
  js "9007199254740993" = int_to_string 9007199254740993
  /\ parseInt (js "9007199254740993") = Int 9007199254740992
  /\ nativize (js "9007199254740993") = VStr (js "9007199254740993").
Proof. repeat split; reflexivity. Qed.

(* ===================================================================== *)
(** * The tree builder: where a value ends up *)
(* ===================================================================== *)

Lemma no_proto_cons (seg : jsstring) (rest : list jsstring) :
  no_proto_segment (seg :: rest) = true ->
  jsstring_eqb seg proto_name = false /\ no_proto_segment rest = true.
Proof.
  unfold no_proto_segment. simpl. rewrite andb_true_iff, negb_true_iff.
  tauto.
Qed.

Lemma walk_last (current v : value) (seg : jsstring) :
  walk current [seg] v = set_prop current seg v.
Proof. cbn [walk]. rewrite property_key_path_part. reflexivity. Qed.

Lemma walk_step (current v : value) (seg next : jsstring)
  (rest : list jsstring) :
  walk current (seg :: next :: rest) v
  = (has <- has_own_property current seg ;;
     current1 <- (if has then Ok current
                  else set_prop current seg empty_object) ;;
     child <- get_prop current1 seg ;;
     child' <- walk child (next :: rest) v ;;
     Ok (store_child current1 seg child')).
Proof.
  cbn [walk]. rewrite property_key_path_part, typeof_element_not_number.
  reflexivity.
Qed.

(** Walking into a primitive ends in a [TypeError]. *)
Lemma walk_primitive (path : list jsstring) (current v : value) :
  is_object current = false -> path <> [] ->
  no_proto_segment path = true ->
  walk current path v = Throw TypeError.
Proof.
  revert current. induction path as [|seg rest IH]; intros current Hc Hne Hp;
    [congruence|].
  apply no_proto_cons in Hp. destruct Hp as [Hseg Hrest].
  destruct rest as [|next rest'].
  - rewrite walk_last.
    destruct current; simpl; try rewrite Hseg; try reflexivity; discriminate.
  - rewrite walk_step.
    destruct current as [| | b | n | s | cls props]; try discriminate;
      try reflexivity;
      try (simpl; rewrite Hseg; reflexivity).
    cbn [has_own_property bind].
    match goal with |- context [if ?b then Ok _ else _] => destruct b end.
    + cbn [bind].
      assert (Hchild : exists child,
                 get_prop (VStr s) seg = Ok child /\ is_object child = false).
      { simpl. rewrite Hseg.
        destruct (jsstring_eqb seg length_name);
          [eexists; split; reflexivity|].
        destruct (array_index seg); [|eexists; split; reflexivity].
        destruct (nth_error s (N.to_nat n));
          eexists; split; reflexivity. }
      destruct Hchild as [child [-> Hprim]]. cbn [bind].
      rewrite IH; [reflexivity | exact Hprim | discriminate | exact Hrest].
    + simpl. rewrite Hseg. reflexivity.
Qed.

Lemma get_prop_plain (props : list (jsstring * value)) (key : jsstring) :
  jsstring_eqb key proto_name = false ->
  get_prop (VObject Plain props) key
  = Ok (match obj_get props key with Some v => v | None => VUndefined end).
Proof. intros H. simpl. rewrite H. reflexivity. Qed.

Lemma set_prop_plain (props : list (jsstring * value)) (key : jsstring)
  (v : value) :
  jsstring_eqb key proto_name = false ->
  set_prop (VObject Plain props) key v
  = Ok (VObject Plain (obj_set props key v)).
Proof. intros H. simpl. rewrite H. reflexivity. Qed.

(** What a successful last step looks like. *)
Lemma walk_last_inv (current v r : value) (seg : jsstring) :
  array_free current = true -> jsstring_eqb seg proto_name = false ->
  walk current [seg] v = Ok r ->
  exists props, current = VObject Plain props
                /\ r = VObject Plain (obj_set props seg v).
Proof.
  intros Ha Hseg. rewrite walk_last.
  destruct current as [| | b | n | s | [] props]; simpl; try rewrite Hseg;
    try discriminate.
  intros H; injection H as <-. exists props. auto.
Qed.

(** What a successful inner step looks like: the current node is a plain
    object, the child is the one it had or a fresh empty object, and the
    rest of the walk happens in the child. *)
Lemma walk_step_inv (current v r : value) (seg next : jsstring)
  (rest : list jsstring) :
  array_free current = true -> jsstring_eqb seg proto_name = false ->
  no_proto_segment (next :: rest) = true ->
  walk current (seg :: next :: rest) v = Ok r ->
  exists props props1 child child',
    current = VObject Plain props
    /\ ((props1 = props /\ obj_get props seg = Some child)
        \/ (obj_get props seg = None
            /\ props1 = obj_set props seg empty_object
            /\ child = empty_object))
    /\ array_free child = true
    /\ walk child (next :: rest) v = Ok child'
    /\ r = VObject Plain (obj_set props1 seg child').
Proof.
  intros Ha Hseg Hrest Hw.
  destruct current as [| | b | n | s | [] props];
    try (rewrite walk_primitive in Hw;
         [discriminate | reflexivity | discriminate
          | unfold no_proto_segment in *; simpl in *; rewrite Hseg; exact Hrest]);
    [|discriminate].
  rewrite walk_step in Hw. cbn [has_own_property] in Hw.
  destruct (obj_get props (js "hasOwnProperty")); [discriminate|].
  cbn [bind] in Hw.
  destruct (obj_get props seg) as [c|] eqn:Hget; cbn [bind] in Hw.
  - rewrite get_prop_plain, Hget in Hw by exact Hseg. cbn [bind] in Hw.
    destruct (walk c (next :: rest) v) as [child'| |] eqn:Hc;
      try discriminate.
    cbn [bind store_child] in Hw. injection Hw as <-.
    exists props, props, c, child'. repeat split; auto.
    cbn [array_free] in Ha. rewrite forallb_forall in Ha.
    apply obj_get_In in Hget. exact (Ha _ Hget).
  - rewrite set_prop_plain in Hw by exact Hseg. cbn [bind] in Hw.
    rewrite get_prop_plain, obj_get_set_same in Hw by exact Hseg.
    cbn [bind] in Hw.
    destruct (walk empty_object (next :: rest) v) as [child'| |] eqn:Hc;
      try discriminate.
    cbn [bind store_child] in Hw. injection Hw as <-.
    exists props, (obj_set props seg empty_object), empty_object, child'.
    repeat split; auto.
Qed.

(** A walk that succeeds leaves the value at the end of its path. *)
Lemma walk_lookup (path : list jsstring) (current v r : value) :
  array_free current = true -> no_proto_segment path = true ->
  path <> [] -> walk current path v = Ok r ->
  lookup path r = Some v.
Proof.
  revert current r. induction path as [|seg rest IH];
    intros current r Ha Hp Hne Hw; [congruence|].
  apply no_proto_cons in Hp. destruct Hp as [Hseg Hrest].
  destruct rest as [|next rest'].
  - destruct (@walk_last_inv _ _ _ _ Ha Hseg Hw) as [props [-> ->]].
    simpl. rewrite obj_get_set_same. reflexivity.
  - destruct (@walk_step_inv _ _ _ _ _ _ Ha Hseg Hrest Hw)
      as [props [props1 [child [child' [-> [_ [Hac [Hc ->]]]]]]]].
    cbn [lookup]. rewrite obj_get_set_same.
    eapply IH; [exact Hac | exact Hrest | discriminate | exact Hc].
Qed.

Lemma diverge_nonempty (p q : list jsstring) :
  diverge p q = true -> p <> [] /\ q <> [].
Proof. destruct p, q; simpl; try discriminate. split; discriminate. Qed.

(** A walk leaves alone every path that parts ways with its own. *)
Lemma walk_frame (q : list jsstring) :
  forall (p : list jsstring) (current v r : value),
    array_free current = true -> no_proto_segment q = true ->
    diverge p q = true -> walk current q v = Ok r ->
    lookup p r = lookup p current.
Proof.
  induction q as [|b q' IH]; intros p current v r Ha Hq Hd Hw;
    [destruct p; discriminate|].
  destruct p as [|a p']; [discriminate|].
  apply no_proto_cons in Hq. destruct Hq as [Hb Hq'].
  cbn [diverge] in Hd.
  destruct q' as [|next rest].
  - destruct (@walk_last_inv _ _ _ _ Ha Hb Hw) as [props [-> ->]].
    destruct (jsstring_eqb a b) eqn:Hab; [destruct p'; discriminate|].
    apply jsstring_eqb_neq in Hab. cbn [lookup].
    rewrite obj_get_set_other by congruence. reflexivity.
  - destruct (@walk_step_inv _ _ _ _ _ _ Ha Hb Hq' Hw)
      as [props [props1 [child [child' [-> [Hch [Hac [Hc ->]]]]]]]].
    cbn [lookup].
    destruct (jsstring_eqb a b) eqn:Hab.
    + apply jsstring_eqb_eq in Hab. subst a.
      rewrite obj_get_set_same.
      rewrite (IH p' child v child' Hac Hq' Hd Hc).
      destruct Hch as [[-> ->] | [-> [-> ->]]]; [reflexivity|].
      destruct (@diverge_nonempty _ _ Hd) as [Hp' _].
      destruct p'; [congruence | reflexivity].
    + apply jsstring_eqb_neq in Hab.
      rewrite obj_get_set_other by congruence.
      destruct Hch as [[-> _] | [_ [-> _]]]; [reflexivity|].
      rewrite obj_get_set_other by congruence. reflexivity.
Qed.

(** On the empty object the walk builds exactly the nest of the path. *)
Lemma walk_fresh (path : list jsstring) (v : value) :
  no_proto_segment path = true ->
  walk empty_object path v = Ok (nest path v).
Proof.
  induction path as [|seg rest IH]; intros Hp; [reflexivity|].
  apply no_proto_cons in Hp. destruct Hp as [Hseg Hrest].
  destruct rest as [|next rest'].
  - rewrite walk_last. simpl. rewrite Hseg. reflexivity.
  - rewrite walk_step. unfold empty_object at 1 2 3.
    cbn [has_own_property obj_get bind].
    rewrite set_prop_plain by exact Hseg. cbn [bind].
    rewrite get_prop_plain, obj_get_set_same by exact Hseg. cbn [bind].
    rewrite (IH Hrest). cbn [bind store_child obj_set].
    rewrite jsstring_eqb_refl. reflexivity.
Qed.

Lemma lookup_nest (path : list jsstring) (v : value) :
  path <> [] -> lookup path (nest path v) = Some v.
Proof.
  induction path as [|seg rest IH]; intros Hne; [congruence|].
  destruct rest as [|next rest'].
  - simpl. rewrite jsstring_eqb_refl. reflexivity.
  - cbn [nest lookup obj_get]. rewrite jsstring_eqb_refl.
    apply IH. discriminate.
Qed.

(** X1: following a key path into a value that is no object ends in a
    [TypeError]: when the tree already holds a scalar (a string, number,
    boolean or null) at the path [p], storing anything at a longer path
    [p ++ q] throws, whatever the value. *)
Theorem scalar_is_never_descended_into (current prim v : value)
  (p q : list jsstring) :
  lookup p current = Some prim -> is_object prim = false -> q <> [] ->
  no_proto_segment (p ++ q) = true ->
  walk current (p ++ q) v = Throw TypeError.
Proof.
  revert current. induction p as [|a p' IH]; intros current Hl Hprim Hq Hp.
  - simpl in Hl. injection Hl as ->. simpl.
    apply walk_primitive; assumption.
  - change ((a :: p') ++ q) with (a :: (p' ++ q)) in *.
    apply no_proto_cons in Hp. destruct Hp as [Ha Hp].
    cbn [lookup] in Hl.
    destruct current as [| | b | n | s | [] props]; try discriminate.
    destruct (obj_get props a) as [child|] eqn:Hget; [|discriminate].
    pose proof (IH child Hl Hprim Hq Hp) as Hchild.
    remember (p' ++ q) as path eqn:E.
    destruct path as [|next rest].
    { symmetry in E. apply app_eq_nil in E. destruct E; congruence. }
    rewrite walk_step. cbn [has_own_property].
    destruct (obj_get props (js "hasOwnProperty")); [reflexivity|].
    rewrite Hget. cbn [bind].
    rewrite get_prop_plain, Hget by exact Ha. cbn [bind].
    rewrite Hchild. reflexivity.
Qed.

Lemma scalar_is_never_descended_into_witness :
  walk (VObject Plain [(js "a", VStr (js "x"))]) ([js "a"] ++ [js "b"])
    (VStr (js "y")) = Throw TypeError
  /\ _configFromEnv nested_conflict_env (js "APP_") default_delimiter
     = Throw TypeError.
Proof.
  split; [|reflexivity].
  apply (@scalar_is_never_descended_into
           (VObject Plain [(js "a", VStr (js "x"))]) (VStr (js "x"))
           (VStr (js "y")) [js "a"] [js "b"]);
    [reflexivity | reflexivity | discriminate | reflexivity].
Defined.

(* ===================================================================== *)
(** * [interpret]: every variable at its path *)
(* ===================================================================== *)

Lemma split_aux_nonempty (sep s : jsstring) :
  forall skip cur, split_aux sep s skip cur <> [].
Proof.
  induction s as [|c s IH]; intros skip cur; cbn [split_aux];
    [discriminate|].
  destruct skip; [|apply IH].
  destruct (is_prefix sep (c :: s)); [discriminate | apply IH].
Qed.

Lemma split_nonempty (k d : jsstring) : k <> [] -> split k d <> [].
Proof.
  intros Hk. unfold split. destruct d; [|apply split_aux_nonempty].
  destruct k; [congruence | discriminate].
Qed.

(** The loop of [interpret] over the keys [l]: a key whose value is in the
    tree, or that is still to come, has its value in the final tree. *)
Lemma interpret_fold_lookup (fl : list (jsstring * option jsstring))
  (d : jsstring) :
  (forall k, In k (List.map fst fl) ->
             no_proto_segment (split k d) = true) ->
  (forall k1 k2, In k1 (List.map fst fl) -> In k2 (List.map fst fl) ->
                 k1 <> k2 -> diverge (split k1 d) (split k2 d) = true) ->
  forall (l : list jsstring) (acc r : value),
    (forall k, In k l -> In k (List.map fst fl)) ->
    array_free acc = true ->
    fold_result
      (fun obj k =>
         match read fl k with
         | None => Throw TypeError
         | Some raw => walk obj (split k d) (interpret_value raw)
         end) l acc = Ok r ->
    forall k raw, read fl k = Some raw -> k <> [] ->
      In k l \/ lookup (split k d) acc = Some (interpret_value raw) ->
      lookup (split k d) r = Some (interpret_value raw).
Proof.
  intros Hproto Hdiv.
  induction l as [|x l IH]; intros acc r Hl Ha Hf k raw Hread Hk Hcase.
  - simpl in Hf. injection Hf as <-. destruct Hcase as [[]|H]; exact H.
  - cbn [fold_result] in Hf.
    destruct (read fl x) as [rawx|] eqn:Hx; [|discriminate].
    destruct (walk acc (split x d) (interpret_value rawx)) as [acc'| |]
      eqn:Hw; try discriminate.
    cbn [bind] in Hf.
    assert (Hxin : In x (List.map fst fl)) by (apply Hl; left; reflexivity).
    assert (Ha' : array_free acc' = true).
    { eapply walk_array_free;
        [exact Ha | apply interpret_value_array_free | exact Hw]. }
    apply (IH acc' r); auto.
    { intros k' Hk'. apply Hl. right. exact Hk'. }
    destruct (jsstring_eqb x k) eqn:Exk.
    + apply jsstring_eqb_eq in Exk. subst x.
      rewrite Hread in Hx. injection Hx as <-. right.
      eapply walk_lookup;
        [exact Ha | apply Hproto; exact Hxin
         | apply split_nonempty; exact Hk | exact Hw].
    + apply jsstring_eqb_neq in Exk.
      destruct Hcase as [[Heq | Hin] | Hacc]; [congruence | left; exact Hin |].
      right. rewrite <- Hacc.
      eapply walk_frame;
        [exact Ha | apply Hproto; exact Hxin | | exact Hw].
      apply Hdiv; [eapply read_Some_In; exact Hread | exact Hxin | congruence].
Qed.

(** X2: when [interpret] returns a tree, every key of the flat map has its
    interpreted value at its path (the key split at the delimiter),
    provided the paths of different keys part ways at some segment and no
    segment is [__proto__]. *)
Theorem every_variable_at_its_path
  (fl : list (jsstring * option jsstring)) (d : jsstring) (r : value)
  (k raw : jsstring) :
  interpret fl d = Ok r ->
  (forall k', In k' (List.map fst fl) ->
              no_proto_segment (split k' d) = true) ->
  (forall k1 k2, In k1 (List.map fst fl) -> In k2 (List.map fst fl) ->
                 k1 <> k2 -> diverge (split k1 d) (split k2 d) = true) ->
  k <> [] -> read fl k = Some raw ->
  lookup (split k d) r = Some (interpret_value raw).
Proof.
  intros Hi Hproto Hdiv Hk Hread. unfold interpret in Hi. cbv zeta in Hi.
  eapply (@interpret_fold_lookup fl d Hproto Hdiv (Object_keys fl)
            empty_object r); try eassumption.
  - intros k' Hk'. apply In_Object_keys. exact Hk'.
  - reflexivity.
  - left. apply In_Object_keys. eapply read_Some_In. exact Hread.
Qed.

Lemma every_variable_at_its_path_witness :
  lookup [js "db"; js "host"]
    (VObject Plain
       [ (js "db", VObject Plain [ (js "port", VNum (Int 3306));
                                   (js "host", VStr (js "h")) ]);
         (js "flag", VBool true) ])
  = Some (VStr (js "h")).
Proof.
  apply (@every_variable_at_its_path
           [ (js "db_port", Some (js "3306"));
             (js "db_host", Some (js "h"));
             (js "flag", Some (js "true")) ]
           default_delimiter
           (VObject Plain
              [ (js "db", VObject Plain [ (js "port", VNum (Int 3306));
                                          (js "host", VStr (js "h")) ]);
                (js "flag", VBool true) ])
           (js "db_host") (js "h")).
  - reflexivity.
  - intros k' [<- | [<- | [<- | []]]]; reflexivity.
  - intros k1 k2 [<- | [<- | [<- | []]]] [<- | [<- | [<- | []]]] Hne;
      try reflexivity; congruence.
  - discriminate.
  - reflexivity.
Defined.

(* ===================================================================== *)
(** * The flat map: which names it holds *)
(* ===================================================================== *)

(** What group 1 of the pattern can be: a non-empty run without line
    terminators, followed by the end of the key or by a version suffix. *)
Lemma lazy_group_sound (rest : jsstring) :
  forall taken g, lazy_group taken rest = Some g ->
  exists nm suffix,
    rest = nm ++ suffix /\ g = rev taken ++ nm /\ nm <> []
    /\ no_line_terminator nm = true
    /\ (suffix = [] \/ is_version_suffix suffix = true).
Proof.
  induction rest as [|c rest IH]; intros taken g H; [discriminate|].
  destruct rest as [|c' r].
  - cbn [lazy_group] in H.
    destruct (is_line_terminator c) eqn:Hc; [discriminate|].
    injection H as <-. exists [c], []. cbn [rev]. repeat split; auto.
    + discriminate.
    + unfold no_line_terminator. cbn [forallb]. rewrite Hc. reflexivity.
  - rewrite lazy_group_step in H.
    destruct (is_line_terminator c) eqn:Hc; [discriminate|].
    destruct (is_version_suffix (c' :: r)) eqn:Hv.
    + injection H as <-. exists [c], (c' :: r). cbn [rev].
      repeat split; auto.
      * discriminate.
      * unfold no_line_terminator. cbn [forallb]. rewrite Hc. reflexivity.
    + destruct (IH _ _ H) as [nm [suffix [E [Hg [Hne [Hlt Hs]]]]]].
      exists (c :: nm), suffix. repeat split.
      * rewrite E. reflexivity.
      * rewrite Hg. cbn [rev]. rewrite <- app_assoc. reflexivity.
      * discriminate.
      * unfold no_line_terminator in *. cbn [forallb]. rewrite Hc, Hlt.
        reflexivity.
      * exact Hs.
Qed.

Lemma regexp_exec_sound (ns k nm : jsstring) :
  regexp_exec ns k = Some nm ->
  exists suffix,
    k = ns ++ nm ++ suffix /\ nm <> [] /\ no_line_terminator nm = true
    /\ (suffix = [] \/ is_version_suffix suffix = true).
Proof.
  unfold regexp_exec. destruct (strip_prefix ns k) as [rest|] eqn:E;
    [|discriminate].
  intros H. apply strip_prefix_Some in E.
  destruct (lazy_group_sound _ _ H) as [nm' [suffix [Er [Hg [Hne [Hlt Hs]]]]]].
  simpl in Hg. subst nm'. exists suffix. subst. auto.
Qed.

Lemma is_prefix_strip_prefix (p s : jsstring) :
  is_prefix p s = false -> strip_prefix p s = None.
Proof.
  revert s. induction p as [|x p IH]; intros [|y s]; simpl; try congruence.
  destruct (N.eqb x y); simpl; auto.
Qed.

(** The loop of [_configFromEnv] only stores names that the pattern gives
    for one of the keys it runs over. *)
Lemma fold_flat_keys (env : list (jsstring * option jsstring))
  (ns : jsstring) (l : list jsstring) :
  forall agg nm,
    In nm (List.map fst (fold_left (flat_step env ns) l agg)) ->
    In nm (List.map fst agg)
    \/ (nm <> proto_name /\ exists k, In k l /\ regexp_exec ns k = Some nm).
Proof.
  induction l as [|cur l IH]; intros agg nm H; [left; exact H|].
  cbn [fold_left] in H. destruct (IH _ _ H) as [Hagg | [Hp [k [Hk Hr]]]].
  - unfold flat_step in Hagg.
    destruct (regexp_exec ns cur) as [nm'|] eqn:E; [|left; exact Hagg].
    unfold assign in Hagg.
    destruct (jsstring_eqb nm' proto_name) eqn:Ep; [left; exact Hagg|].
    apply obj_set_keys in Hagg. destruct Hagg as [-> | Hagg];
      [|left; exact Hagg].
    right. split; [apply jsstring_eqb_neq; exact Ep|].
    exists cur. split; [left; reflexivity | exact E].
  - right. split; [exact Hp|]. exists k. split; [right; exact Hk | exact Hr].
Qed.

Lemma flat_keys_sound (env : list (jsstring * option jsstring))
  (ns nm : jsstring) :
  In nm (List.map fst (flat env ns)) ->
  nm <> proto_name
  /\ exists k, In k (List.map fst env) /\ regexp_exec ns k = Some nm.
Proof.
  intros H. unfold flat in H.
  destruct (fold_flat_keys _ _ _ _ _ H) as [[] | [Hp [k [Hk Hr]]]].
  split; [exact Hp|]. exists k. split; [|exact Hr].
  apply In_Object_keys, In_sort. exact Hk.
Qed.

(** X3: every name of the flat map comes from a key of the source map
    that starts with the namespace: the key is the namespace, then the
    name, then nothing or a version suffix (two underscores and decimal
    digits).  The name is not empty and is not [__proto__]; keys outside
    the namespace give no name. *)
Theorem flat_names_come_from_the_namespace
  (env : list (jsstring * option jsstring)) (ns nm : jsstring) :
  ns_literal ns = true ->
  In nm (List.map fst (flat env ns)) ->
  nm <> [] /\ nm <> proto_name
  /\ exists k suffix,
       In k (List.map fst env) /\ k = ns ++ nm ++ suffix
       /\ (suffix = [] \/ is_version_suffix suffix = true).
Proof.
  intros _ H. destruct (flat_keys_sound _ _ _ H) as [Hp [k [Hk Hr]]].
  destruct (regexp_exec_sound _ _ Hr) as [suffix [E [Hne [_ Hs]]]].
  repeat split; auto. exists k, suffix. auto.
Qed.

Lemma flat_names_come_from_the_namespace_witness :
  js "x" <> [] /\ js "x" <> proto_name
  /\ exists k suffix,
       In k (List.map fst versions_env) /\ k = js "APP_" ++ js "x" ++ suffix
       /\ (suffix = [] \/ is_version_suffix suffix = true).
Proof.
  apply (@flat_names_come_from_the_namespace versions_env (js "APP_")
           (js "x")); [reflexivity|].
  left. reflexivity.
Defined.

(** X4: a source map none of whose keys starts with the namespace gives
    the empty flat map and the empty configuration. *)
Theorem nothing_in_the_namespace
  (env : list (jsstring * option jsstring)) (ns delimiter : jsstring) :
  ns_literal ns = true ->
  (forall k, In k (List.map fst env) -> is_prefix ns k = false) ->
  flat env ns = [] /\ _configFromEnv env ns delimiter = Ok empty_object.
Proof.
  intros _ Hall.
  assert (Hflat : flat env ns = []).
  { unfold flat.
    assert (Hl : forall k, In k (sort (Object_keys env)) ->
                           regexp_exec ns k = None).
    { intros k Hk. apply In_sort, In_Object_keys in Hk.
      unfold regexp_exec. rewrite is_prefix_strip_prefix; auto. }
    induction (sort (Object_keys env)) as [|cur l IH]; [reflexivity|].
    cbn [fold_left]. unfold flat_step at 2.
    rewrite Hl by (left; reflexivity).
    apply IH. intros k Hk. apply Hl. right. exact Hk. }
  split; [exact Hflat|]. unfold _configFromEnv. rewrite Hflat. reflexivity.
Qed.

Lemma nothing_in_the_namespace_witness :
  flat [ (js "HOME", Some (js "/root")); (js "APPLE", Some (js "1")) ]
    (js "APP_") = []
  /\ _configFromEnv
       [ (js "HOME", Some (js "/root")); (js "APPLE", Some (js "1")) ]
       (js "APP_") default_delimiter = Ok empty_object.
Proof.
  apply (@nothing_in_the_namespace
           [ (js "HOME", Some (js "/root")); (js "APPLE", Some (js "1")) ]
           (js "APP_") default_delimiter); [reflexivity|].
  intros k [<- | [<- | []]]; reflexivity.
Defined.

Lemma lazy_group_whole (base : jsstring) :
  forall c taken,
    no_line_terminator (c :: base) = true ->
    inner_suffix_free (c :: base) = true ->
    lazy_group taken (c :: base) = Some (rev taken ++ c :: base).
Proof.
  induction base as [|c' base IH]; intros c taken Hlt Hfree.
  - unfold no_line_terminator in Hlt. cbn [forallb] in Hlt.
    rewrite andb_true_r in Hlt. apply negb_true_iff in Hlt.
    cbn [lazy_group]. rewrite Hlt. reflexivity.
  - unfold no_line_terminator in Hlt. cbn [forallb] in Hlt.
    apply andb_true_iff in Hlt. destruct Hlt as [Hc Hlt].
    apply negb_true_iff in Hc.
    cbn [inner_suffix_free] in Hfree.
    apply andb_true_iff in Hfree. destruct Hfree as [Hv Hfree].
    apply negb_true_iff in Hv.
    rewrite lazy_group_step, Hc, Hv.
    rewrite IH by assumption. cbn [rev]. rewrite <- app_assoc. reflexivity.
Qed.

(** X5: what the pattern makes of a key of the namespace.  With a version
    suffix (two underscores and decimal digits) at its end, the key gives
    what stands between the namespace and that suffix, so that only the
    last suffix is stripped; with no version suffix inside, it gives all
    that follows the namespace. *)
Theorem version_suffix_stripping (ns base : jsstring) :
  ns_literal ns = true -> base <> [] -> no_line_terminator base = true ->
  (forall d, d <> [] -> forallb is_digit d = true ->
             regexp_exec ns (ns ++ base ++ js "__" ++ d) = Some base)
  /\ (inner_suffix_free base = true ->
      regexp_exec ns (ns ++ base) = Some base).
Proof.
  intros _ Hb Hlt. split.
  - intros d Hd Hdig.
    apply (@regexp_exec_versioned ns base d); assumption.
  - intros Hfree. unfold regexp_exec. rewrite strip_prefix_app.
    destruct base as [|c base]; [congruence|].
    rewrite lazy_group_whole by assumption. reflexivity.
Qed.

Lemma version_suffix_stripping_witness :
  regexp_exec (js "APP_") (js "APP_db2__7") = Some (js "db2")
  /\ regexp_exec (js "APP_") (js "APP_db2") = Some (js "db2").
Proof.
  destruct (@version_suffix_stripping (js "APP_") (js "db2"))
    as [Hversioned Hplain]; [reflexivity | discriminate | reflexivity |].
  split.
  - apply (Hversioned (js "7")); [discriminate | reflexivity].
  - apply Hplain. reflexivity.
Defined.

(* ===================================================================== *)
(** * [_configFromEnv]: from the source map to the tree *)
(* ===================================================================== *)

Lemma Object_keys_single (A : Type) (k : jsstring) (v : A) :
  Object_keys [(k, v)] = [k].
Proof.
  unfold Object_keys, index_keys, is_array_index. cbn [List.map fst flat_map].
  cbn [filter]. destruct (array_index k); reflexivity.
Qed.

(** X6: a source map with one variable of the namespace gives the tree
    that nests the interpreted value under the segments of the variable's
    name, and nothing else. *)
Theorem single_variable_inflates (ns key base raw d : jsstring) :
  ns_literal ns = true ->
  regexp_exec ns key = Some base -> base <> proto_name ->
  no_proto_segment (split base d) = true ->
  _configFromEnv [(key, Some raw)] ns d
  = Ok (nest (split base d) (interpret_value raw))
  /\ lookup (split base d) (nest (split base d) (interpret_value raw))
     = Some (interpret_value raw).
Proof.
  intros _ Hr Hbase Hp. split.
  - unfold _configFromEnv, flat. rewrite Object_keys_single.
    cbn [sort sort_by insert_sorted fold_left]. unfold flat_step.
    rewrite Hr. unfold assign. apply jsstring_eqb_neq in Hbase.
    rewrite Hbase. cbn [obj_set]. unfold read at 1. cbn [obj_get].
    rewrite jsstring_eqb_refl.
    unfold interpret. rewrite Object_keys_single. cbn [fold_result].
    unfold read. cbn [obj_get]. rewrite jsstring_eqb_refl.
    rewrite walk_fresh by exact Hp. reflexivity.
  - apply lookup_nest. apply split_nonempty.
    destruct (regexp_exec_sound _ _ Hr) as [suffix [_ [Hne _]]]. exact Hne.
Qed.

Lemma single_variable_inflates_witness :
  _configFromEnv [(js "APP_db_port__2", Some (js "3306"))] (js "APP_")
    default_delimiter
  = Ok (VObject Plain
          [(js "db", VObject Plain [(js "port", VNum (Int 3306))])])
  /\ lookup [js "db"; js "port"]
       (VObject Plain
          [(js "db", VObject Plain [(js "port", VNum (Int 3306))])])
     = Some (VNum (Int 3306)).
Proof.
  apply (@single_variable_inflates (js "APP_") (js "APP_db_port__2")
           (js "db_port") (js "3306") default_delimiter);
    [reflexivity | reflexivity | discriminate | reflexivity].
Defined.

(** X7: from the source map to the tree.  When [_configFromEnv] returns a
    tree, the value of a variable is found, interpreted, at the path of its
    name, the name being the key without the namespace and the version
    suffix; among keys with the same name, the one that sorts last gives the
    value.  The paths of different names must part ways at some segment,
    and no segment may be [__proto__]. *)
Theorem variable_value_at_its_path
  (env : list (jsstring * option jsstring)) (ns d : jsstring) (r : value)
  (k nm raw : jsstring) :
  ns_literal ns = true ->
  _configFromEnv env ns d = Ok r ->
  (forall k' n', In k' (List.map fst env) -> regexp_exec ns k' = Some n' ->
                 no_proto_segment (split n' d) = true) ->
  (forall k1 k2 n1 n2,
      In k1 (List.map fst env) -> In k2 (List.map fst env) ->
      regexp_exec ns k1 = Some n1 -> regexp_exec ns k2 = Some n2 ->
      n1 <> n2 -> diverge (split n1 d) (split n2 d) = true) ->
  regexp_exec ns k = Some nm -> nm <> proto_name ->
  (forall k', In k' (List.map fst env) -> regexp_exec ns k' = Some nm ->
              jsstring_leb k' k = true) ->
  read env k = Some raw ->
  lookup (split nm d) r = Some (interpret_value raw).
Proof.
  intros _ Hc Hproto Hdiv Hk Hnm Hmax Hread. unfold _configFromEnv in Hc.
  assert (Hin : In k (List.map fst env))
    by (eapply read_Some_In; exact Hread).
  assert (Hflat : read (flat env ns) nm = Some raw).
  { rewrite <- Hread. apply flat_last_wins; assumption. }
  unfold interpret in Hc. cbv zeta in Hc.
  eapply (@interpret_fold_lookup (flat env ns) d) with
    (l := Object_keys (flat env ns)) (acc := empty_object);
    try eassumption.
  - intros k' Hk'. destruct (flat_keys_sound _ _ _ Hk') as [_ [k0 [H0 Hr0]]].
    exact (Hproto _ _ H0 Hr0).
  - intros k1 k2 H1 H2 Hne.
    destruct (flat_keys_sound _ _ _ H1) as [_ [a [Ha Hra]]].
    destruct (flat_keys_sound _ _ _ H2) as [_ [b [Hb Hrb]]].
    exact (Hdiv _ _ _ _ Ha Hb Hra Hrb Hne).
  - intros k' Hk'. apply In_Object_keys. exact Hk'.
  - reflexivity.
  - destruct (regexp_exec_sound _ _ Hk) as [suffix [_ [Hne _]]]. exact Hne.
  - left. apply In_Object_keys. eapply read_Some_In. exact Hflat.
Qed.

Lemma variable_value_at_its_path_witness :
  lookup (split (js "db_port") default_delimiter)
    (VObject Plain
       [ (js "db", VObject Plain [ (js "host", VStr (js "h"));
                                   (js "port", VNum (Int 3306)) ]);
         (js "flag", VBool true) ])
  = Some (interpret_value (js "3306")).
Proof.
  apply (@variable_value_at_its_path two_variables_env (js "APP_")
           default_delimiter
           (VObject Plain
              [ (js "db", VObject Plain [ (js "host", VStr (js "h"));
                                          (js "port", VNum (Int 3306)) ]);
                (js "flag", VBool true) ])
           (js "APP_db_port") (js "db_port") (js "3306")).
  - reflexivity.
  - reflexivity.
  - intros k' n' [<- | [<- | [<- | [<- | []]]]] H; vm_compute in H;
      try discriminate; injection H as <-; reflexivity.
  - intros k1 k2 n1 n2 [<- | [<- | [<- | [<- | []]]]]
      [<- | [<- | [<- | [<- | []]]]] H1 H2 Hne;
      vm_compute in H1; vm_compute in H2; try discriminate;
      injection H1 as <-; injection H2 as <-;
      try reflexivity; congruence.
  - reflexivity.
  - discriminate.
  - intros k' [<- | [<- | [<- | [<- | []]]]] H; vm_compute in H;
      try discriminate; try reflexivity;
      injection H as H; discriminate.
  - reflexivity.
Defined.

(* ===================================================================== *)
(** * The boolean cast *)
(* ===================================================================== *)

Lemma round53_nonzero (m : N) : m <> 0 -> round53 m <> 0.
Proof.
  intros Hm. destruct (N.lt_ge_cases m (2 ^ 53)) as [Hlt | Hge].
  - rewrite round53_small by exact Hlt. exact Hm.
  - pose proof (round53_big Hge) as H.
    assert (0 < 2 ^ 53) by (apply N.neq_0_lt_0, N.pow_nonzero; discriminate).
    lia.
Qed.

Lemma Boolean_to_double (neg : bool) (m : N) :
  m <> 0 -> Boolean (VNum (Integral (to_double neg m))) = true.
Proof.
  intros Hm. unfold to_double.
  destruct (2 ^ 1024 <=? round53 m); [reflexivity|].
  pose proof (round53_nonzero Hm) as Hr.
  cbn [Boolean]. apply negb_true_iff, Z.eqb_neq. destruct neg; lia.
Qed.

(** [Number] on the string form of a non-zero integer: the double nearest
    to it. *)
Lemma Number_int_to_string_nonzero (z : Z) :
  z <> 0%Z ->
  Number (int_to_string z)
  = Integral (to_double (Z.ltb z 0) (Z.abs_N z)).
Proof.
  intros Hz. destruct z as [|p|p]; [congruence| |].
  - destruct (decimal_positive p) as [c [r [E [Hc Hc0]]]].
    pose proof (decimal_digits (Npos p)) as Hd.
    pose proof (decimal_value_decimal (Npos p)) as Hv.
    cbn [int_to_string Z.ltb Z.compare Z.abs_N]. rewrite E in *.
    unfold Number, StringNumericLiteral. rewrite trim_digits by exact Hd.
    assert (Hlit : decimal_literal (c :: r) = Some (Npos p, 0%Z)).
    { rewrite decimal_literal_digits, Hv by (auto; discriminate).
      reflexivity. }
    assert (Hof : of_decimal false (Npos p) 0
                  = Integral (to_double false (Npos p))).
    { unfold of_decimal. cbn [N.eqb Z.to_N]. rewrite N.pow_0_r, N.mul_1_r.
      reflexivity. }
    each_digit digit_cases Hc; try congruence;
      cbn -[decimal_literal of_decimal to_double];
      rewrite Hlit, Hof; reflexivity.
  - destruct (decimal_positive p) as [c [r [E [Hc Hc0]]]].
    pose proof (decimal_digits (Npos p)) as Hd.
    pose proof (decimal_value_decimal (Npos p)) as Hv.
    cbn [int_to_string Z.ltb Z.compare Z.abs_N]. rewrite E in *.
    change (js "-" ++ c :: r) with (45 :: c :: r).
    unfold Number, StringNumericLiteral.
    rewrite trim_negative_digits by (auto; discriminate).
    assert (Hlit : decimal_literal (c :: r) = Some (Npos p, 0%Z)).
    { rewrite decimal_literal_digits, Hv by (auto; discriminate).
      reflexivity. }
    assert (Hof : of_decimal true (Npos p) 0
                  = Integral (to_double true (Npos p))).
    { unfold of_decimal. cbn [N.eqb Z.to_N]. rewrite N.pow_0_r, N.mul_1_r.
      reflexivity. }
    each_digit digit_cases Hc; try congruence;
      cbn -[decimal_literal of_decimal to_double];
      rewrite Hlit, Hof; reflexivity.
Qed.

Lemma falsy_text_int_to_string (z : Z) :
  z <> 0%Z -> falsy_text (int_to_string z) = false.
Proof.
  intros Hz. destruct z as [|p|p]; [congruence| |].
  - destruct (decimal_positive p) as [c [r [E [Hc Hc0]]]].
    cbn [int_to_string]. rewrite E.
    each_digit digit_cases Hc; try congruence; destruct r; reflexivity.
  - reflexivity.
Qed.

(** The truth value of what native inference makes of a string. *)
Lemma Boolean_nativize (x : jsstring) :
  Boolean (nativize x) = negb (falsy_text x).
Proof.
  unfold nativize.
  destruct (jsstring_eqb (integral_to_string (parseInt x)) x) eqn:Etest.
  - apply jsstring_eqb_eq in Etest.
    destruct (@looks_like_int_numeral x Etest) as [-> | [z ->]];
      [reflexivity|].
    destruct (Z.eq_dec z 0) as [-> | Hz]; [reflexivity|].
    rewrite Number_int_to_string_nonzero by exact Hz.
    rewrite falsy_text_int_to_string by exact Hz.
    apply Boolean_to_double. lia.
  - destruct (jsstring_eqb x (js "true")) eqn:Et.
    { apply jsstring_eqb_eq in Et. subst x. reflexivity. }
    destruct (jsstring_eqb x (js "false")) eqn:Ef.
    { apply jsstring_eqb_eq in Ef. subst x. reflexivity. }
    destruct (jsstring_eqb x (js "null")) eqn:En.
    { apply jsstring_eqb_eq in En. subst x. reflexivity. }
    unfold falsy_text. rewrite Ef, En.
    destruct (jsstring_eqb x (js "0")) eqn:E0.
    { apply jsstring_eqb_eq in E0. subst x. discriminate. }
    destruct (jsstring_eqb x (js "NaN")) eqn:Enan.
    { apply jsstring_eqb_eq in Enan. subst x. discriminate. }
    destruct x; reflexivity.
Qed.

(** X8: the boolean cast is false for exactly five texts: [<boolean>X],
    for [X] without a line terminator, is [false] when [X] is empty or one
    of [0], [false], [null], [NaN], and [true] for every other [X] (so
    [<boolean>no], [<boolean>off] and [<boolean>FALSE] are true). *)
Theorem boolean_cast_is_false_for_five_texts (x : jsstring) :
  no_line_terminator x = true ->
  interpret_value (js "<boolean>" ++ x) = VBool (negb (falsy_text x)).
Proof.
  intros Hlt. unfold interpret_value.
  rewrite match_cast_boolean, Hlt.
  change (jsstring_eqb (js "boolean") (js "number")) with false.
  change (jsstring_eqb (js "boolean") (js "boolean")) with true.
  cbv iota. rewrite Boolean_nativize. reflexivity.
Qed.

Lemma boolean_cast_is_false_for_five_texts_witness :
  interpret_value (js "<boolean>off") = VBool true.
Proof.
  apply (@boolean_cast_is_false_for_five_texts (js "off")). reflexivity.
Defined.

(* ===================================================================== *)
(** * The secrets directory: entries and failures *)
(* ===================================================================== *)

(** The loop of [inflateSecretsDir] over readable names. *)
Lemma secrets_fold_entries (h : host) (names : list jsstring) :
  (forall f, In f names -> exists text, readFileSync h f = Ok text) ->
  forall acc,
  exists env,
    fold_result
      (fun acc f => text <- readFileSync h f ;; Ok (assign acc f (Some text)))
      names acc = Ok env
    /\ (forall f text, In f names -> f <> proto_name ->
                       readFileSync h f = Ok text -> read env f = Some text)
    /\ (forall f, ~ In f names -> read env f = read acc f)
    /\ (forall k, In k (List.map fst env) ->
                  In k names \/ In k (List.map fst acc)).
Proof.
  induction names as [|x names IH]; intros Hall acc.
  - exists acc. simpl. repeat split; auto. intros f text [].
  - destruct (Hall x (or_introl eq_refl)) as [tx Hx].
    destruct (IH (fun f Hf => Hall f (or_intror Hf))
                 (assign acc x (Some tx)))
      as [env [Hfold [Hread [Hkeep Hkeys]]]].
    exists env. cbn [fold_result]. rewrite Hx. cbn [bind].
    split; [exact Hfold|]. split; [|split].
    + intros f text Hin Hp Hf.
      destruct (in_dec (list_eq_dec N.eq_dec) f names) as [Hn | Hn].
      * exact (Hread f text Hn Hp Hf).
      * destruct Hin as [-> | Hin]; [|contradiction].
        rewrite (Hkeep f Hn), read_assign_same by exact Hp.
        congruence.
    + intros f Hn. rewrite Hkeep by (intros H; apply Hn; right; exact H).
      apply read_assign_other. intros ->. apply Hn. left. reflexivity.
    + intros k Hk. destruct (Hkeys k Hk) as [H | H]; [left; right; exact H|].
      unfold assign in H. destruct (jsstring_eqb x proto_name);
        [right; exact H|].
      apply obj_set_keys in H. destruct H as [-> | H];
        [left; left; reflexivity | right; exact H].
Qed.

(** X9: when every name that the directory listing returns can be read as
    a file under that bare name, [inflateSecretsDir] returns a map with
    one entry per name and nothing else, the value being what
    [readFileSync] returned for the bare name. *)
Theorem secrets_are_the_bare_name_reads (h : host) (path : jsstring)
  (names : list jsstring) :
  readdirSync h path = Ok names ->
  (forall f, In f names -> exists text, readFileSync h f = Ok text) ->
  exists env,
    inflateSecretsDir h path = Ok env
    /\ (forall f text, In f names -> f <> proto_name ->
                       readFileSync h f = Ok text -> read env f = Some text)
    /\ (forall k, In k (List.map fst env) -> In k names).
Proof.
  intros Hdir Hall. unfold inflateSecretsDir. rewrite Hdir. cbn [bind].
  destruct (secrets_fold_entries h names Hall [])
    as [env [Hfold [Hread [_ Hkeys]]]].
  exists env. split; [exact Hfold|]. split; [exact Hread|].
  intros k Hk. destruct (Hkeys k Hk) as [H | []]. exact H.
Qed.

Lemma secrets_are_the_bare_name_reads_witness :
  exists env,
    inflateSecretsDir cwd_host (js "/ok") = Ok env
    /\ (forall f text, In f [js "APP_a"; js "APP_b"] -> f <> proto_name ->
                       readFileSync cwd_host f = Ok text ->
                       read env f = Some text)
    /\ (forall k, In k (List.map fst env) -> In k [js "APP_a"; js "APP_b"]).
Proof.
  apply (@secrets_are_the_bare_name_reads cwd_host (js "/ok")
           [js "APP_a"; js "APP_b"]); [reflexivity|].
  intros f [<- | [<- | []]]; eexists; reflexivity.
Defined.

(** X10: the first entry of the directory listing that cannot be read
    under its bare name (a subdirectory, or a file that is not in the
    working directory) makes [inflateSecretsDir] throw that read's error;
    the entries after it are not read. *)
Theorem first_unreadable_entry_aborts (h : host) (path : jsstring)
  (before after : list jsstring) (f : jsstring) (e : exn) :
  readdirSync h path = Ok (before ++ f :: after) ->
  (forall g, In g before -> exists text, readFileSync h g = Ok text) ->
  readFileSync h f = Throw e ->
  inflateSecretsDir h path = Throw e.
Proof.
  intros Hdir Hbefore Hf. unfold inflateSecretsDir. rewrite Hdir.
  cbn [bind]. clear Hdir.
  generalize (@nil (jsstring * option jsstring)) as acc.
  induction before as [|x before IH]; intros acc.
  - cbn [app fold_result]. rewrite Hf. reflexivity.
  - destruct (Hbefore x (or_introl eq_refl)) as [tx Hx].
    cbn [app fold_result]. rewrite Hx. cbn [bind].
    apply IH. intros g Hg. apply Hbefore. right. exact Hg.
Qed.

Lemma first_unreadable_entry_aborts_witness :
  inflateSecretsDir cwd_host (js "/mixed") = Throw enoent.
Proof.
  apply (@first_unreadable_entry_aborts cwd_host (js "/mixed")
           [js "APP_a"] [] (js "sub") enoent).
  - reflexivity.
  - intros g [<- | []]. eexists. reflexivity.
  - reflexivity.
Defined.

(* ===================================================================== *)
(** * Sources that are not there *)
(* ===================================================================== *)

(** X11: a defaults file, a locals file or a secrets directory that is
    not named, is named by the empty string or does not exist is no error:
    nothing is read for it and it contributes the empty object, so that
    the values to merge are three empty objects and the tree of the
    environment. *)
Theorem missing_sources_contribute_nothing (h : host) (ns : jsstring)
  (src : sources) (delimiter : jsstring) :
  unusable h (defaultsFile src) = true ->
  unusable h (localsFile src) = true ->
  unusable h (secretsDir src) = true ->
  vals h ns src delimiter
  = (v3 <- match env src with
           | Some e => _configFromEnv e ns delimiter
           | None => Ok empty_object
           end ;;
     Ok [empty_object; empty_object; empty_object; v3]).
Proof.
  intros Hd Hl Hs. unfold vals.
  assert (Hjson : forall file, unusable h file = true ->
                               read_json h file = Ok empty_object).
  { intros [[|c p]|]; cbn [unusable read_json]; try reflexivity.
    intros H. apply negb_true_iff in H. rewrite H. reflexivity. }
  rewrite (Hjson _ Hd), (Hjson _ Hl). cbn [bind].
  destruct (secretsDir src) as [[|c p]|]; cbn [unusable] in Hs;
    try reflexivity.
  apply negb_true_iff in Hs. rewrite Hs. reflexivity.
Qed.

Lemma missing_sources_contribute_nothing_witness :
  vals empty_host (js "APP_") missing_files default_delimiter
  = Ok [ empty_object; empty_object; empty_object;
         VObject Plain [(js "flag", VBool true)] ].
Proof.
  apply (@missing_sources_contribute_nothing empty_host (js "APP_")
           missing_files default_delimiter); reflexivity.
Defined.

(* ===================================================================== *)
(** * The shape of the tree *)
(* ===================================================================== *)

Lemma set_prop_is_object (current v r : value) (key : jsstring) :
  set_prop current key v = Ok r -> is_object current = true ->
  is_object r = true.
Proof.
  destruct current as [| | b | n | s | cls props]; try discriminate.
  intros H _. cbn [set_prop] in H.
  destruct (jsstring_eqb key proto_name).
  - destruct v; try discriminate; injection H as <-; reflexivity.
  - destruct cls; [injection H as <-; reflexivity|].
    destruct (jsstring_eqb key length_name); [discriminate|].
    injection H as <-; reflexivity.
Qed.

Lemma walk_is_object (path : list jsstring) (current v r : value) :
  is_object current = true -> walk current path v = Ok r ->
  is_object r = true.
Proof.
  intros Hc. destruct path as [|seg [|next rest]].
  - simpl. intros H; injection H as <-; exact Hc.
  - rewrite walk_last. intros H. exact (set_prop_is_object _ _ _ H Hc).
  - rewrite walk_step.
    destruct (has_own_property current seg) as [has| |]; try discriminate.
    cbn [bind].
    assert (Hcur : forall current1,
               (if has then Ok current
                else set_prop current seg empty_object) = Ok current1 ->
               is_object current1 = true).
    { intros current1. destruct has.
      - intros H; injection H as <-; exact Hc.
      - intros H. exact (set_prop_is_object _ _ _ H Hc). }
    destruct (if has then Ok current else set_prop current seg empty_object)
      as [current1| |]; try discriminate.
    specialize (Hcur current1 eq_refl). cbn [bind].
    destruct (get_prop current1 seg) as [child| |]; try discriminate.
    cbn [bind].
    destruct (walk child (next :: rest) v) as [child'| |]; try discriminate.
    cbn [bind]. intros H; injection H as <-.
    destruct current1; try discriminate. reflexivity.
Qed.

(** X12: whatever the source map, the namespace and the delimiter, a tree
    that [_configFromEnv] returns is a plain object, holds no array at any
    depth, and none of its objects has two properties of one name. *)
Theorem configFromEnv_tree_shape (env : list (jsstring * option jsstring))
  (ns delimiter : jsstring) (r : value) :
  _configFromEnv env ns delimiter = Ok r ->
  (exists props, r = VObject Plain props)
  /\ array_free r = true /\ well_formed r = true.
Proof.
  intros H. unfold _configFromEnv in H.
  pose proof (interpret_array_free _ _ H) as Ha.
  pose proof (interpret_well_formed _ _ H) as Hw.
  split; [|split; assumption].
  assert (Ho : is_object r = true).
  { unfold interpret in H. revert H.
    apply (fold_result_invariant (fun t => is_object t = true));
      [|reflexivity].
    intros acc k acc' Hacc.
    destruct (read (flat env ns) k) as [raw|]; [|discriminate].
    apply walk_is_object. exact Hacc. }
  destruct r as [| | b | n | s | [] props]; try discriminate.
  exists props. reflexivity.
Qed.

Lemma configFromEnv_tree_shape_witness :
  (exists props,
      VObject Plain [(js "items", VObject Plain [ (js "0", VStr (js "a"));
                                                  (js "1", VStr (js "b")) ])]
      = VObject Plain props)
  /\ array_free
       (VObject Plain [(js "items", VObject Plain [ (js "0", VStr (js "a"));
                                                    (js "1", VStr (js "b")) ])])
     = true
  /\ well_formed
       (VObject Plain [(js "items", VObject Plain [ (js "0", VStr (js "a"));
                                                    (js "1", VStr (js "b")) ])])
     = true.
Proof.
  apply (@configFromEnv_tree_shape items_env (js "APP_") default_delimiter).
  reflexivity.
Defined.

(* ===================================================================== *)
(** * The order in which the source map lists its keys *)
(* ===================================================================== *)

Lemma insert_sorted_perm (A : Type) (leb : A -> A -> bool) (x : A)
  (l : list A) :
  Permutation (insert_sorted leb x l) (x :: l).
Proof.
  induction l as [|y l IH]; simpl; [apply Permutation_refl|].
  destruct (leb x y); [apply Permutation_refl|].
  eapply Permutation_trans; [apply perm_skip; exact IH | apply perm_swap].
Qed.

Lemma sort_by_perm (A : Type) (leb : A -> A -> bool) (l : list A) :
  Permutation (sort_by leb l) l.
Proof.
  induction l as [|x l IH]; simpl; [apply Permutation_refl|].
  eapply Permutation_trans; [apply insert_sorted_perm|].
  apply perm_skip. exact IH.
Qed.

(** Two sorted lists with the same elements are the same list. *)
Lemma sorted_perm_unique (l1 : list jsstring) :
  forall l2,
    StronglySorted (fun a b => jsstring_leb a b = true) l1 ->
    StronglySorted (fun a b => jsstring_leb a b = true) l2 ->
    Permutation l1 l2 -> l1 = l2.
Proof.
  induction l1 as [|a l1 IH]; intros l2 H1 H2 Hp.
  - apply Permutation_nil in Hp. congruence.
  - destruct l2 as [|b l2].
    { apply Permutation_sym, Permutation_nil in Hp. discriminate. }
    apply StronglySorted_inv in H1. destruct H1 as [Hs1 Ha].
    apply StronglySorted_inv in H2. destruct H2 as [Hs2 Hb].
    rewrite Forall_forall in Ha, Hb.
    assert (Hab : a = b).
    { assert (Hin1 : In a (b :: l2))
        by (eapply Permutation_in; [exact Hp | left; reflexivity]).
      assert (Hin2 : In b (a :: l1))
        by (eapply Permutation_in;
            [apply Permutation_sym; exact Hp | left; reflexivity]).
      destruct Hin1 as [-> | Hin1]; [reflexivity|].
      destruct Hin2 as [-> | Hin2]; [reflexivity|].
      apply jsstring_leb_antisym; auto. }
    subst b. f_equal. apply IH; auto.
    eapply Permutation_cons_inv. exact Hp.
Qed.

Lemma sort_perm_eq (l1 l2 : list jsstring) :
  Permutation l1 l2 -> sort l1 = sort l2.
Proof.
  intros Hp. apply sorted_perm_unique; try apply sort_sorted.
  unfold sort.
  eapply Permutation_trans; [apply sort_by_perm|].
  eapply Permutation_trans; [exact Hp|].
  apply Permutation_sym, sort_by_perm.
Qed.

Lemma index_keys_names (keys : list jsstring) :
  List.map snd (index_keys keys) = filter is_array_index keys.
Proof.
  unfold index_keys, is_array_index.
  induction keys as [|k keys IH]; [reflexivity|].
  cbn [flat_map filter]. destruct (array_index k); cbn [app List.map snd];
    rewrite IH; reflexivity.
Qed.

Lemma filter_partition_perm (A : Type) (f : A -> bool) (l : list A) :
  Permutation (filter f l ++ filter (fun x => negb (f x)) l) l.
Proof.
  induction l as [|x l IH]; [apply Permutation_refl|].
  cbn [filter]. destruct (f x); cbn [negb app].
  - apply perm_skip. exact IH.
  - apply Permutation_sym.
    eapply Permutation_trans; [|apply Permutation_middle].
    apply perm_skip, Permutation_sym. exact IH.
Qed.

(** [Object.keys] lists each own property name once. *)
Lemma Object_keys_perm (A : Type) (o : list (jsstring * A)) :
  Permutation (Object_keys o) (List.map fst o).
Proof.
  unfold Object_keys.
  eapply Permutation_trans; [|apply (filter_partition_perm is_array_index)].
  apply Permutation_app; [|apply Permutation_refl].
  rewrite <- index_keys_names. apply Permutation_map, sort_by_perm.
Qed.

Lemma obj_get_NoDup (A : Type) (o : list (jsstring * A)) (k : jsstring)
  (v : A) :
  NoDup (List.map fst o) -> In (k, v) o -> obj_get o k = Some v.
Proof.
  induction o as [|[k0 v0] o IH]; intros Hnd Hin; [destruct Hin|].
  cbn [List.map fst] in Hnd. apply NoDup_cons_iff in Hnd.
  destruct Hnd as [Hk0 Hnd]. cbn [obj_get].
  destruct Hin as [Heq | Hin].
  - injection Heq as -> ->. rewrite jsstring_eqb_refl. reflexivity.
  - destruct (jsstring_eqb k0 k) eqn:E; [|auto].
    apply jsstring_eqb_eq in E. subst k0. exfalso. apply Hk0.
    apply (in_map fst) in Hin. exact Hin.
Qed.

Lemma obj_get_perm (A : Type) (o o' : list (jsstring * A)) (k : jsstring) :
  NoDup (List.map fst o) -> Permutation o o' -> obj_get o k = obj_get o' k.
Proof.
  intros Hnd Hp.
  assert (Hnd' : NoDup (List.map fst o'))
    by (eapply Permutation_NoDup; [apply Permutation_map; exact Hp | exact Hnd]).
  destruct (obj_get o k) as [v|] eqn:E.
  - symmetry. apply obj_get_NoDup; [exact Hnd'|].
    eapply Permutation_in; [exact Hp | apply obj_get_In; exact E].
  - destruct (obj_get o' k) as [v'|] eqn:E'; [|reflexivity].
    apply obj_get_In in E'.
    rewrite (@obj_get_NoDup _ o k v' Hnd) in E; [discriminate|].
    eapply Permutation_in; [apply Permutation_sym; exact Hp | exact E'].
Qed.

(** X13: the flat map, and with it the tree, does not depend on the order
    in which the source map lists its keys: two source maps with the same
    entries in a different order give the same result. *)
Theorem enumeration_order_is_irrelevant
  (env env' : list (jsstring * option jsstring)) (ns delimiter : jsstring) :
  ns_literal ns = true ->
  NoDup (List.map fst env) -> Permutation env env' ->
  flat env ns = flat env' ns
  /\ _configFromEnv env ns delimiter = _configFromEnv env' ns delimiter.
Proof.
  intros _ Hnd Hp.
  assert (Hflat : flat env ns = flat env' ns).
  { unfold flat.
    assert (Hkeys : sort (Object_keys env) = sort (Object_keys env')).
    { apply sort_perm_eq.
      eapply Permutation_trans; [apply Object_keys_perm|].
      eapply Permutation_trans; [apply Permutation_map; exact Hp|].
      apply Permutation_sym, Object_keys_perm. }
    rewrite <- Hkeys. clear Hkeys.
    generalize (@nil (jsstring * option jsstring)) as agg.
    induction (sort (Object_keys env)) as [|cur l IH]; intros agg;
      [reflexivity|].
    cbn [fold_left]. rewrite IH. f_equal.
    unfold flat_step, read. rewrite (obj_get_perm cur Hnd Hp). reflexivity. }
  split; [exact Hflat|]. unfold _configFromEnv. rewrite Hflat. reflexivity.
Qed.

Lemma enumeration_order_is_irrelevant_witness :
  flat versions_env (js "APP_")
  = flat [ (js "APP_x__1", Some (js "a"));
           (js "HOME", Some (js "/root"));
           (js "APP_x__2", Some (js "b")) ] (js "APP_")
  /\ _configFromEnv versions_env (js "APP_") default_delimiter
     = _configFromEnv [ (js "APP_x__1", Some (js "a"));
                        (js "HOME", Some (js "/root"));
                        (js "APP_x__2", Some (js "b")) ]
         (js "APP_") default_delimiter.
Proof.
  apply (@enumeration_order_is_irrelevant versions_env
           [ (js "APP_x__1", Some (js "a"));
             (js "HOME", Some (js "/root"));
             (js "APP_x__2", Some (js "b")) ]
           (js "APP_") default_delimiter).
  - reflexivity.
  - repeat constructor; simpl; intuition discriminate.
  - unfold versions_env.
    eapply perm_trans; [apply perm_skip, perm_swap | apply perm_swap].
Defined.

(* ===================================================================== *)
(** * [interpret]: when it succeeds *)
(* ===================================================================== *)

Lemma plain_segments_no_proto (path : list jsstring) :
  plain_segments path = true -> no_proto_segment path = true.
Proof.
  unfold plain_segments, no_proto_segment. rewrite !forallb_forall.
  intros H seg Hin. specialize (H seg Hin).
  apply andb_true_iff in H. apply H.
Qed.

Lemma plain_segments_In (path : list jsstring) (seg : jsstring) :
  plain_segments path = true -> In seg path ->
  seg <> js "hasOwnProperty".
Proof.
  unfold plain_segments. rewrite forallb_forall. intros H Hin.
  specialize (H seg Hin). apply andb_true_iff in H. destruct H as [_ H].
  apply negb_true_iff in H. apply jsstring_eqb_neq. exact H.
Qed.

Lemma no_proto_app (p q : list jsstring) :
  no_proto_segment (p ++ q) = true ->
  no_proto_segment p = true /\ no_proto_segment q = true.
Proof.
  unfold no_proto_segment. rewrite forallb_app. apply andb_true_iff.
Qed.

Lemma interpret_value_scalar (raw : jsstring) :
  is_object (interpret_value raw) = false.
Proof.
  unfold interpret_value, nativize. destruct (match_cast raw) as [[ty x]|];
    repeat match goal with |- context [if ?b then _ else _] => destruct b end;
    reflexivity.
Qed.

Lemma lookup_app (p q : list jsstring) :
  forall t, lookup (p ++ q) t
            = match lookup p t with Some c => lookup q c | None => None end.
Proof.
  induction p as [|a p IH]; intros t; [reflexivity|].
  cbn [app lookup]. destruct t as [| | b | n | s | [] props]; try reflexivity.
  destruct (obj_get props a); [apply IH | reflexivity].
Qed.

Lemma lookup_scalar (q : list jsstring) (v : value) :
  is_object v = false -> q <> [] -> lookup q v = None.
Proof.
  intros Hv Hq. destruct q; [congruence|].
  destruct v; try discriminate; reflexivity.
Qed.

Lemma diverge_prefix (p q : list jsstring) : diverge p (p ++ q) = false.
Proof.
  induction p as [|a p IH]; [reflexivity|].
  cbn [app diverge]. rewrite jsstring_eqb_refl. exact IH.
Qed.

(** Two paths part ways, or one continues the other. *)
Lemma path_trichotomy (p : list jsstring) :
  forall path,
    diverge p path = true
    \/ (exists q, path = p ++ q)
    \/ (exists q, q <> [] /\ p = path ++ q).
Proof.
  induction p as [|a p IH]; intros path.
  - right; left. exists path. reflexivity.
  - destruct path as [|b path].
    + right; right. exists (a :: p). split; [discriminate | reflexivity].
    + cbn [diverge]. destruct (jsstring_eqb a b) eqn:E; [|left; reflexivity].
      apply jsstring_eqb_eq in E. subst b.
      destruct (IH path) as [H | [[q ->] | [q [Hq ->]]]].
      * left. exact H.
      * right; left. exists q. reflexivity.
      * right; right. exists q. split; [exact Hq | reflexivity].
Qed.

(** Where the walk passes through, the tree holds an object. *)
Lemma walk_prefix_object (p q : list jsstring) :
  forall (current v r : value),
    array_free current = true -> no_proto_segment (p ++ q) = true ->
    q <> [] -> walk current (p ++ q) v = Ok r ->
    exists w, lookup p r = Some w /\ is_object w = true.
Proof.
  induction p as [|a p IH]; intros current v r Ha Hp Hq Hw.
  - exists r. split; [reflexivity|]. cbn [app] in *.
    destruct (is_object current) eqn:Hc.
    + exact (walk_is_object _ _ _ Hc Hw).
    + rewrite walk_primitive in Hw; [discriminate | assumption..].
  - change ((a :: p) ++ q) with (a :: (p ++ q)) in *.
    apply no_proto_cons in Hp. destruct Hp as [Hseg Hrest].
    remember (p ++ q) as path eqn:E. destruct path as [|next rest].
    { symmetry in E. apply app_eq_nil in E. destruct E; congruence. }
    destruct (@walk_step_inv _ _ _ _ _ _ Ha Hseg Hrest Hw)
      as [props [props1 [child [child' [-> [_ [Hac [Hc ->]]]]]]]].
    cbn [lookup]. rewrite obj_get_set_same.
    exact (IH _ _ _ Hac Hrest Hq Hc).
Qed.

Section Success.
Variable fl : list (jsstring * option jsstring).
Variable d : jsstring.

Hypothesis Hplain :
  forall k, In k (List.map fst fl) -> plain_segments (split k d) = true.
Hypothesis Hdiv :
  forall k1 k2, In k1 (List.map fst fl) -> In k2 (List.map fst fl) ->
                k1 <> k2 -> diverge (split k1 d) (split k2 d) = true.

Lemma covered_child (pre : list jsstring) (props : list (jsstring * value))
  (seg : jsstring) (c : value) :
  covered fl d pre (VObject Plain props) -> obj_get props seg = Some c ->
  covered fl d (pre ++ [seg]) c.
Proof.
  intros Hcov Hget p v Hp Hl.
  destruct (Hcov (seg :: p) v) as [k [q [Hk [Hs Hq]]]]; [discriminate | |].
  - cbn [lookup]. rewrite Hget. exact Hl.
  - exists k, q. split; [exact Hk|]. split; [|exact Hq].
    rewrite Hs, <- app_assoc. reflexivity.
Qed.

(** The walk for the key [x] goes through. *)
Lemma walk_succeeds (x : jsstring) (v : value) :
  In x (List.map fst fl) ->
  forall (path pre : list jsstring) (current : value),
    split x d = pre ++ path ->
    array_free current = true -> is_object current = true ->
    covered fl d pre current ->
    exists r, walk current path v = Ok r.
Proof.
  intros Hx. induction path as [|seg rest IH];
    intros pre current Hsplit Ha Ho Hcov.
  - exists current. reflexivity.
  - destruct current as [| | b | n | s | [] props]; try discriminate.
    pose proof (Hplain _ Hx) as Hpx. rewrite Hsplit in Hpx.
    assert (Hnp : no_proto_segment (seg :: rest) = true).
    { apply plain_segments_no_proto in Hpx. apply no_proto_app in Hpx.
      apply Hpx. }
    apply no_proto_cons in Hnp. destruct Hnp as [Hseg Hrest].
    destruct rest as [|next rest'].
    + rewrite walk_last, set_prop_plain by exact Hseg. eexists. reflexivity.
    + rewrite walk_step. cbn [has_own_property].
      destruct (obj_get props (js "hasOwnProperty")) as [w|] eqn:Hown.
      { exfalso.
        destruct (Hcov [js "hasOwnProperty"] w) as [k [q [Hk [Hs _]]]];
          [discriminate | cbn [lookup]; rewrite Hown; reflexivity |].
        apply (@plain_segments_In (split k d) (js "hasOwnProperty"));
          [apply Hplain; exact Hk | | reflexivity].
        rewrite Hs. apply in_or_app. right. left. reflexivity. }
      cbn [bind]. destruct (obj_get props seg) as [c|] eqn:Hget.
      * cbn [bind]. rewrite get_prop_plain, Hget by exact Hseg. cbn [bind].
        assert (Hco : is_object c = true).
        { destruct (is_object c) eqn:Hc; [reflexivity|]. exfalso.
          destruct (Hcov [seg] c) as [k [q [Hk [Hs Hq]]]];
            [discriminate | cbn [lookup]; rewrite Hget; reflexivity |].
          rewrite (Hq Hc), app_nil_r in Hs.
          assert (Hne : k <> x).
          { intros ->. rewrite Hsplit in Hs.
            apply app_inv_head in Hs. discriminate. }
          pose proof (Hdiv Hk Hx Hne) as Hd.
          rewrite Hs, Hsplit in Hd.
          change (seg :: next :: rest') with ([seg] ++ next :: rest') in Hd.
          rewrite app_assoc, diverge_prefix in Hd. discriminate. }
        assert (Hca : array_free c = true).
        { cbn [array_free] in Ha. rewrite forallb_forall in Ha.
          apply obj_get_In in Hget. exact (Ha _ Hget). }
        destruct (IH (pre ++ [seg]) c) as [child' Hw]; auto.
        { rewrite Hsplit, <- app_assoc. reflexivity. }
        { eapply covered_child; eassumption. }
        rewrite Hw. cbn [bind]. eexists. reflexivity.
      * cbn [bind]. rewrite set_prop_plain by exact Hseg. cbn [bind].
        rewrite get_prop_plain, obj_get_set_same by exact Hseg. cbn [bind].
        rewrite walk_fresh by exact Hrest. cbn [bind]. eexists. reflexivity.
Qed.

(** The walk for the key [x] keeps the tree covered. *)
Lemma walk_keeps_covered (x : jsstring) (v acc acc' : value) :
  In x (List.map fst fl) -> is_object v = false ->
  array_free acc = true -> covered fl d [] acc ->
  walk acc (split x d) v = Ok acc' ->
  covered fl d [] acc'.
Proof.
  intros Hx Hv Ha Hcov Hw p w Hp Hl.
  pose proof (plain_segments_no_proto _ (Hplain _ Hx)) as Hnp.
  destruct (split x d) as [|s0 path0] eqn:Hpath.
  { simpl in Hw. injection Hw as <-. exact (Hcov p w Hp Hl). }
  rewrite <- Hpath in *.
  destruct (path_trichotomy p (split x d)) as [Hd | [[q Hq] | [q [Hq Hpq]]]].
  - rewrite (@walk_frame _ _ _ _ _ Ha Hnp Hd Hw) in Hl.
    exact (Hcov p w Hp Hl).
  - exists x, q. split; [exact Hx|]. split; [exact Hq|].
    intros Hscalar. destruct q as [|q0 q']; [reflexivity|]. exfalso.
    rewrite Hq in Hw, Hnp.
    destruct (@walk_prefix_object p (q0 :: q') acc v acc' Ha Hnp
                ltac:(discriminate) Hw) as [w' [Hl' Ho]].
    rewrite Hl in Hl'. injection Hl' as <-. congruence.
  - exfalso.
    assert (Hend : lookup (split x d) acc' = Some v).
    { eapply walk_lookup; [exact Ha | exact Hnp | | exact Hw].
      rewrite Hpath. discriminate. }
    rewrite Hpq, lookup_app, Hend, lookup_scalar in Hl by assumption.
    discriminate.
Qed.

(** The loop of [interpret] goes through from a covered tree. *)
Lemma interpret_fold_succeeds :
  (forall k, In k (List.map fst fl) -> exists raw, read fl k = Some raw) ->
  forall (l : list jsstring) (acc : value),
    (forall k, In k l -> In k (List.map fst fl)) ->
    array_free acc = true -> is_object acc = true -> covered fl d [] acc ->
    exists r,
      fold_result
        (fun obj k =>
           match read fl k with
           | None => Throw TypeError
           | Some raw => walk obj (split k d) (interpret_value raw)
           end) l acc = Ok r.
Proof.
  intros Hdef. induction l as [|x l IH]; intros acc Hl Ha Ho Hcov.
  - exists acc. reflexivity.
  - assert (Hx : In x (List.map fst fl)) by (apply Hl; left; reflexivity).
    destruct (Hdef x Hx) as [raw Hraw].
    destruct (@walk_succeeds x (interpret_value raw) Hx (split x d) [] acc
                eq_refl Ha Ho Hcov) as [acc' Hw].
    cbn [fold_result]. rewrite Hraw, Hw. cbn [bind].
    apply IH.
    + intros k Hk. apply Hl. right. exact Hk.
    + eapply walk_array_free;
        [exact Ha | apply interpret_value_array_free | exact Hw].
    + exact (walk_is_object _ _ _ Ho Hw).
    + eapply walk_keeps_covered;
        [exact Hx | apply interpret_value_scalar | exact Ha | exact Hcov
         | exact Hw].
Qed.
End Success.

(** X14: [interpret] returns a tree, with every key's interpreted value at
    the key's path, when every key of the flat map has a defined value,
    the paths of different keys part ways at some segment, and no segment
    is [__proto__] or [hasOwnProperty]. *)
Theorem interpret_succeeds (fl : list (jsstring * option jsstring))
  (d : jsstring) :
  (forall k, In k (List.map fst fl) -> exists raw, read fl k = Some raw) ->
  (forall k, In k (List.map fst fl) -> plain_segments (split k d) = true) ->
  (forall k1 k2, In k1 (List.map fst fl) -> In k2 (List.map fst fl) ->
                 k1 <> k2 -> diverge (split k1 d) (split k2 d) = true) ->
  exists r,
    interpret fl d = Ok r
    /\ forall k raw, k <> [] -> read fl k = Some raw ->
                     lookup (split k d) r = Some (interpret_value raw).
Proof.
  intros Hdef Hplain Hdiv.
  destruct (@interpret_fold_succeeds fl d Hplain Hdiv Hdef (Object_keys fl)
              empty_object) as [r Hr].
  - intros k Hk. apply In_Object_keys. exact Hk.
  - reflexivity.
  - reflexivity.
  - intros p v Hp Hl. destruct p; [congruence | discriminate].
  - exists r. split; [exact Hr|]. intros k raw Hk Hread.
    eapply (@interpret_fold_lookup fl d) with (l := Object_keys fl)
      (acc := empty_object); try eassumption.
    + intros k' Hk'. apply plain_segments_no_proto, Hplain. exact Hk'.
    + intros k' Hk'. apply In_Object_keys. exact Hk'.
    + reflexivity.
    + left. apply In_Object_keys. eapply read_Some_In. exact Hread.
Qed.

Lemma interpret_succeeds_witness :
  exists r,
    interpret three_names default_delimiter = Ok r
    /\ forall k raw, k <> [] -> read three_names k = Some raw ->
                     lookup (split k default_delimiter) r
                     = Some (interpret_value raw).
Proof.
  apply (@interpret_succeeds three_names default_delimiter).
  - intros k [<- | [<- | [<- | []]]]; eexists; reflexivity.
  - intros k [<- | [<- | [<- | []]]]; reflexivity.
  - intros k1 k2 [<- | [<- | [<- | []]]] [<- | [<- | [<- | []]]] Hne;
      try reflexivity; congruence.
Defined.

(* ===================================================================== *)
(** * Native inference and the number cast: edges *)
(* ===================================================================== *)

Lemma parseInt_int_to_string_nonzero (z : Z) :
  z <> 0%Z ->
  parseInt (int_to_string z) = to_double (Z.ltb z 0) (Z.abs_N z).
Proof.
  intros Hz. destruct z as [|p|p]; [congruence| |].
  - destruct (decimal_positive p) as [c [r [E [Hc Hc0]]]].
    pose proof (decimal_digits (Npos p)) as Hd.
    pose proof (decimal_value_decimal (Npos p)) as Hv.
    cbn [int_to_string Z.ltb Z.compare Z.abs_N]. rewrite E in *.
    simpl in Hd. apply andb_true_iff in Hd.
    rewrite parseInt_digits; try tauto; try (rewrite Hv; discriminate).
    rewrite Hv. reflexivity.
  - destruct (decimal_positive p) as [c [r [E [Hc Hc0]]]].
    pose proof (decimal_digits (Npos p)) as Hd.
    pose proof (decimal_value_decimal (Npos p)) as Hv.
    cbn [int_to_string Z.ltb Z.compare Z.abs_N]. rewrite E in *.
    simpl in Hd. apply andb_true_iff in Hd.
    change (js "-" ++ c :: r) with (45 :: c :: r).
    rewrite parseInt_negative_digits; try tauto;
      try (rewrite Hv; discriminate).
    rewrite Hv. reflexivity.
Qed.

(** Where the test of [nativize] holds, [Number] and [parseInt] agree. *)
Lemma Number_is_parseInt (v : jsstring) :
  integral_to_string (parseInt v) = v ->
  Number v = Integral (parseInt v).
Proof.
  intros Etest.
  destruct (@looks_like_int_numeral v Etest) as [-> | [z ->]];
    [reflexivity|].
  destruct (Z.eq_dec z 0) as [-> | Hz]; [reflexivity|].
  rewrite Number_int_to_string_nonzero, parseInt_int_to_string_nonzero
    by exact Hz.
  reflexivity.
Qed.

(** X15: native inference loses nothing: whatever the raw text, the value
    that [nativize] infers prints as that text again (a number is only
    inferred from the text that is its own string form, and the booleans
    and null only from their names). *)
Theorem inference_is_lossless (h : host) (v : jsstring) :
  to_string h (nativize v) = Ok v.
Proof.
  unfold nativize.
  destruct (jsstring_eqb (integral_to_string (parseInt v)) v) eqn:Etest.
  - apply jsstring_eqb_eq in Etest.
    rewrite (Number_is_parseInt Etest). cbn [to_string].
    rewrite Etest. reflexivity.
  - destruct (jsstring_eqb v (js "true")) eqn:Et.
    { apply jsstring_eqb_eq in Et. subst v. reflexivity. }
    destruct (jsstring_eqb v (js "false")) eqn:Ef.
    { apply jsstring_eqb_eq in Ef. subst v. reflexivity. }
    destruct (jsstring_eqb v (js "null")) eqn:En.
    { apply jsstring_eqb_eq in En. subst v. reflexivity. }
    reflexivity.
Qed.

Lemma drop_while_all (f : code_unit -> bool) (s : jsstring) :
  forallb f s = true -> drop_while f s = [].
Proof.
  induction s as [|c s IH]; [reflexivity|].
  cbn [forallb drop_while]. intros H. apply andb_true_iff in H.
  destruct H as [Hc Hs]. rewrite Hc. exact (IH Hs).
Qed.

(** X16: a number cast of nothing is zero, not the not-a-number value:
    [<number>X] is the number 0 when [X] is empty or consists of white
    space only. *)
Theorem blank_number_cast_is_zero (x : jsstring) :
  forallb is_whitespace x = true -> no_line_terminator x = true ->
  interpret_value (js "<number>" ++ x) = VNum (Int 0).
Proof.
  intros Hws Hlt. unfold interpret_value.
  rewrite match_cast_number, Hlt.
  change (jsstring_eqb (js "number") (js "number")) with true. cbv iota.
  unfold Number, StringNumericLiteral, trim.
  rewrite (drop_while_all _ _ Hws). reflexivity.
Qed.

Lemma blank_number_cast_is_zero_witness :
  interpret_value (js "<number>") = VNum (Int 0)
  /\ interpret_value (js "<number>  ") = VNum (Int 0).
Proof.
  split.
  - apply (@blank_number_cast_is_zero []); reflexivity.
  - apply (@blank_number_cast_is_zero (js "  ")); reflexivity.
Defined.

(* ===================================================================== *)
(** * Undefined values, in general *)
(* ===================================================================== *)

Lemma fold_flat_keys_mono (env : list (jsstring * option jsstring))
  (ns nm : jsstring) (l : list jsstring) :
  forall agg, In nm (List.map fst agg) ->
              In nm (List.map fst (fold_left (flat_step env ns) l agg)).
Proof.
  induction l as [|cur l IH]; intros agg H; [exact H|].
  cbn [fold_left]. apply IH. unfold flat_step.
  destruct (regexp_exec ns cur) as [nm'|]; [|exact H].
  unfold assign. destruct (jsstring_eqb nm' proto_name); [exact H|].
  apply obj_set_keys. right. exact H.
Qed.

Lemma flat_keys_complete (env : list (jsstring * option jsstring))
  (ns k nm : jsstring) :
  In k (List.map fst env) -> regexp_exec ns k = Some nm ->
  nm <> proto_name ->
  In nm (List.map fst (flat env ns)).
Proof.
  intros Hin Hr Hp. unfold flat.
  assert (Hs : In k (sort (Object_keys env)))
    by (apply In_sort, In_Object_keys; exact Hin).
  destruct (in_split _ _ Hs) as [l1 [l2 ->]].
  rewrite fold_left_app. cbn [fold_left]. apply fold_flat_keys_mono.
  unfold flat_step at 1. rewrite Hr. unfold assign.
  apply jsstring_eqb_neq in Hp. rewrite Hp.
  apply obj_set_keys. left. reflexivity.
Qed.

(** X17: one undefined value is enough to make [_configFromEnv] fail:
    when the key that decides a name of the namespace (the one that sorts
    last among the keys with that name) has the value [undefined], no tree
    is returned, whatever else the source map holds. *)
Theorem undefined_variable_aborts
  (env : list (jsstring * option jsstring)) (ns delimiter k nm : jsstring)
  (r : value) :
  ns_literal ns = true ->
  In k (List.map fst env) -> read env k = None ->
  regexp_exec ns k = Some nm -> nm <> proto_name ->
  (forall k', In k' (List.map fst env) -> regexp_exec ns k' = Some nm ->
              jsstring_leb k' k = true) ->
  _configFromEnv env ns delimiter <> Ok r.
Proof.
  intros _ Hin Hread Hr Hp Hmax. unfold _configFromEnv.
  apply (@interpret_undefined_never_succeeds (flat env ns) delimiter nm r).
  - eapply flat_keys_complete; eassumption.
  - rewrite <- Hread. apply flat_last_wins; assumption.
Qed.

Lemma undefined_variable_aborts_witness :
  read [ (js "APP_a", Some (js "1")); (js "APP_x", None) ] (js "APP_x")
  = None
  /\ _configFromEnv
       [ (js "APP_a", Some (js "1")); (js "APP_x", None) ]
       (js "APP_") default_delimiter
     <> Ok (VObject Plain [(js "a", VNum (Int 1))]).
Proof.
  split; [reflexivity|].
  apply (@undefined_variable_aborts
           [ (js "APP_a", Some (js "1")); (js "APP_x", None) ]
           (js "APP_") default_delimiter (js "APP_x") (js "x")
           (VObject Plain [(js "a", VNum (Int 1))])).
  - reflexivity.
  - right; left; reflexivity.
  - reflexivity.
  - reflexivity.
  - discriminate.
  - intros k' [<- | [<- | []]] H; vm_compute in H;
      try discriminate; reflexivity.
Defined.

(* ===================================================================== *)
(** * Merge precedence, source by source *)
(* ===================================================================== *)






